(** * Voxel layout generation: grid, primitive extraction and generators

    A shallow embedding of the layout generators of the voxel world
    (component_grid_layout: [LayoutGeneratorBasic], [LayoutGeneratorWalls],
    [LayoutGeneratorCave], [LayoutGeneratorTower]) and of [Env::reset],
    together with the properties stated about them.

    Conventions.
    - A C++ [int] is a [Z].  Generator dimensions are drawn below 40, so
      arithmetic on them is exact; [extractPrimitives] runs on arbitrary
      stored coordinates, and there the two additions that can leave the
      [int] range are wrapped ([wrap]).
    - The sparse grid is a finite map from coordinates to voxel states.
    - The random sequencer is an interface ([RngOps]) with its contract
      ([RngLaws]); a concrete linear congruential instance is used to run
      the generators on examples. *)

From Stdlib Require Import ZArith Lia Bool.
From Stdlib Require Import Floats.SpecFloat.
From stdpp Require Import base gmap sets list sorting.

Set Warnings "-clear-no-such-hyp".

Local Open Scope Z_scope.

(** ** Data model *)

Abbreviation VoxelCoords := (Z * Z * Z)%type.

Definition cx (c : VoxelCoords) : Z := c.1.1.
Definition cy (c : VoxelCoords) : Z := c.1.2.
Definition cz (c : VoxelCoords) : Z := c.2.

(** [VoxelState]: the solid flag and the back-reference to an attached
    movable object (an opaque handle). *)
Record VoxelState := mkVoxelState { solid : bool; obj : option nat }.

Definition VoxelState_of (s : bool) : VoxelState := mkVoxelState s None.

(** Modelled from the spec: the [VoxelGrid] class is a sparse map from
    coordinate to state; [set] inserts or overwrites, [get] returns nothing
    for an absent coordinate, [clear] empties the grid. *)
Abbreviation VoxelGrid := (gmap VoxelCoords VoxelState).

Definition grid_set (c : VoxelCoords) (s : VoxelState) (g : VoxelGrid) : VoxelGrid :=
  <[c := s]> g.
Definition grid_get (g : VoxelGrid) (c : VoxelCoords) : option VoxelState := g !! c.
Definition grid_clear (g : VoxelGrid) : VoxelGrid := ∅.

(** [v && v->solid] *)
Definition isSolid (g : VoxelGrid) (c : VoxelCoords) : bool :=
  match grid_get g c with
  | Some v => solid v
  | None => false
  end.

Record BoundingBox := mkBox { bmin : VoxelCoords; bmax : VoxelCoords }.

(** Modelled from the spec: [BoundingBox::addPoint] widens the box to
    include a new coordinate. *)
Definition addPoint (b : BoundingBox) (v : VoxelCoords) : BoundingBox :=
  {| bmin := (Z.min (cx (bmin b)) (cx v), Z.min (cy (bmin b)) (cy v), Z.min (cz (bmin b)) (cz v));
     bmax := (Z.max (cx (bmax b)) (cx v), Z.max (cy (bmax b)) (cy v), Z.max (cz (bmax b)) (cz v)) |}.

(** Voxel coverage of a box with inclusive corners. *)
Definition coversb (b : BoundingBox) (c : VoxelCoords) : bool :=
  (cx (bmin b) <=? cx c) && (cx c <=? cx (bmax b)) &&
  (cy (bmin b) <=? cy c) && (cy c <=? cy (bmax b)) &&
  (cz (bmin b) <=? cz c) && (cz c <=? cz (bmax b)).

Definition covers (b : BoundingBox) (c : VoxelCoords) : Prop :=
  cx (bmin b) <= cx c <= cx (bmax b) /\
  cy (bmin b) <= cy c <= cy (bmax b) /\
  cz (bmin b) <= cz c <= cz (bmax b).

(** ** Machine integers *)

Definition int_min : Z := - 2 ^ 31.
Definition int_max : Z := 2 ^ 31 - 1.

(** Two's complement wrap-around of a 32-bit [int]. *)
Definition wrap (z : Z) : Z := (z - int_min) mod 2 ^ 32 + int_min.

(** A coordinate away from both ends of the [int] range. *)
Definition inner_int (z : Z) : Prop := int_min < z < int_max.

Definition inner_coords (c : VoxelCoords) : Prop :=
  inner_int (cx c) /\ inner_int (cy c) /\ inner_int (cz c).

(** ** Utilities *)

Definition directions : list VoxelCoords := [(1, 0, 0); (0, 1, 0); (0, 0, 1)].

(** [direction * sign] *)
Definition scale (direction : VoxelCoords) (sign : Z) : VoxelCoords :=
  (cx direction * sign, cy direction * sign, cz direction * sign).

(** [for (auto direction : directions) for (int sign = -1; sign <= 1; sign += 2)]:
    the six values taken by [d]. *)
Definition signedDirections : list VoxelCoords :=
  direction ← directions; sign ← [-1; 1]; [scale direction sign].

(** [{c.x() + d.x(), c.y() + d.y(), c.z() + d.z()}] *)
Definition offset (c d : VoxelCoords) : VoxelCoords :=
  (cx c + cx d, cy c + cy d, cz c + cz d).

(** ** Primitive extraction *)

Module Extract.

Record CoordRange := mkRange { rmin : Z; rmax : Z }.

Definition startEndCoord (bboxMin bboxMax direction : Z) : CoordRange :=
  if direction =? 1 then mkRange (wrap (bboxMax + 1)) (wrap (bboxMax + 1))
  else if direction =? -1 then mkRange (wrap (bboxMin - 1)) (wrap (bboxMin - 1))
  else mkRange bboxMin bboxMax.

(** [for (v = r.min; v <= r.max; ++v)] *)
Definition rangeValues (r : CoordRange) : list Z := seqZ (rmin r) (rmax r - rmin r + 1).

(** The coordinates of the candidate layer, in the order of the three
    nested loops. *)
Definition layerCoords (xlim ylim zlim : CoordRange) : list VoxelCoords :=
  x ← rangeValues xlim; y ← rangeValues ylim; z ← rangeValues zlim; [(x, y, z)].

(** [!v || !v->solid || visited.count(coords)] *)
Definition blocked (grid : VoxelGrid) (visited : gset VoxelCoords) (coords : VoxelCoords) : bool :=
  negb (isSolid grid coords) || bool_decide (coords ∈ visited).

(** The scan of one layer: [None] is the jump to [afterLoop] with
    [canExpand = false], [Some expansion] a layer that can be taken. *)
Fixpoint scanLayer (grid : VoxelGrid) (visited : gset VoxelCoords)
    (layer expansion : list VoxelCoords) : option (list VoxelCoords) :=
  match layer with
  | [] => Some expansion
  | coords :: rest =>
      if blocked grid visited coords then None
      else scanLayer grid visited rest (expansion ++ [coords])
  end.

Definition ExpandState : Type := gset VoxelCoords * BoundingBox.

(** [visited.emplace(newVoxelCoord); bbox.addPoint(newVoxelCoord);] *)
Definition commit (st : ExpandState) (expansion : list VoxelCoords) : ExpandState :=
  foldl (fun s c => ({[c]} ∪ s.1, addPoint s.2 c)) st expansion.

(** [while (true)]: grow the box in direction [d] until a layer is blocked.
    [None] stands for a loop that is still running when the fuel is spent. *)
Fixpoint expandDir (fuel : nat) (grid : VoxelGrid) (d : VoxelCoords)
    (st : ExpandState) : option ExpandState :=
  match fuel with
  | O => None
  | S fuel' =>
      let bbox := st.2 in
      let xlim := startEndCoord (cx (bmin bbox)) (cx (bmax bbox)) (cx d) in
      let ylim := startEndCoord (cy (bmin bbox)) (cy (bmax bbox)) (cy d) in
      let zlim := startEndCoord (cz (bmin bbox)) (cz (bmax bbox)) (cz d) in
      match scanLayer grid st.1 (layerCoords xlim ylim zlim) [] with
      | None => Some st
      | Some expansion => expandDir fuel' grid d (commit st expansion)
      end
  end.

Definition expandAll (fuel : nat) (grid : VoxelGrid) (st : ExpandState) : option ExpandState :=
  foldl (fun acc d => acc ≫= expandDir fuel grid d) (Some st) signedDirections.

Definition ExtractState : Type := gset VoxelCoords * list BoundingBox.

(** The body of the loop over the entries of the hash map. *)
Definition visitEntry (fuel : nat) (grid : VoxelGrid) (acc : ExtractState)
    (entry : VoxelCoords * VoxelState) : option ExtractState :=
  let '(coord, voxel) := entry in
  let '(visited, parallelepipeds) := acc in
  if negb (solid voxel) || bool_decide (coord ∈ visited) then Some acc
  else
    '(visited', bbox) ← expandAll fuel grid ({[coord]} ∪ visited, mkBox coord coord);
    Some (visited', parallelepipeds ++ [bbox]).

(** [extractPrimitives] for a given iteration order of the hash map. Every
    inner [while] loop gets as many rounds as the grid has entries, plus
    one. *)
Definition visitAll (grid : VoxelGrid) (order : list (VoxelCoords * VoxelState))
    (acc : ExtractState) : option ExtractState :=
  foldl (fun acc entry => acc ≫= fun a => visitEntry (S (size grid)) grid a entry)
        (Some acc) order.

Definition extractPrimitives_in (order : list (VoxelCoords * VoxelState))
    (grid : VoxelGrid) : option (list BoundingBox) :=
  snd <$> visitAll grid order (∅, []).

Definition extractPrimitives (grid : VoxelGrid) : option (list BoundingBox) :=
  extractPrimitives_in (map_to_list grid) grid.

End Extract.

(** ** The random sequencer and the generator monad *)

(** Modelled from the spec: the random sequencer [Rng] with the helpers that
    consume it. [seed] resets the stream, [range lo hi] draws an integer
    between [lo] and [hi] inclusive, [unitFloat] a float of the unit
    interval; [permute] is [std::shuffle] on a vector of coordinates. *)
Class RngOps := {
  Rng : Type;
  seed : Z -> Rng;
  range : Z -> Z -> Rng -> Z * Rng;
  unitFloat : Rng -> spec_float * Rng;
  permute : list VoxelCoords -> Rng -> list VoxelCoords * Rng
}.

(** The contract of the sequencer: a draw from a non-empty range falls in
    it, and a shuffle permutes. Nothing is promised for an empty range
    (undefined behaviour of the uniform distribution). *)
Class RngLaws (R : RngOps) : Prop := {
  range_bounds : forall lo hi r, lo <= hi -> lo <= (range lo hi r).1 <= hi;
  permute_perm : forall l r, (permute l r).1 ≡ₚ l
}.

Inductive LogMsg :=
  | CouldNotGenerateWall (i : Z)
  | UsingSeed (seedValue : Z).

Inductive Failure :=
  | AssertionFailed    (* a failed [assert] *)
  | OutOfRange         (* a read outside a vector *)
  | Diverged.          (* a loop that does not end *)

Inductive Result (A : Type) :=
  | Ok (a : A)
  | Err (e : Failure).
Arguments Ok {A} a.
Arguments Err {A} e.

Section GenMonad.
Context `{RngOps}.

(** A computation that consumes the sequencer, writes to the log and may
    fail. *)
Definition Gen (A : Type) : Type := Rng -> Result (A * Rng * list LogMsg).

Definition ret {A} (a : A) : Gen A := fun r => Ok (a, r, []).

Definition bind {A B} (m : Gen A) (k : A -> Gen B) : Gen B :=
  fun r =>
    match m r with
    | Ok (a, r1, l1) =>
        match k a r1 with
        | Ok (b, r2, l2) => Ok (b, r2, l1 ++ l2)
        | Err e => Err e
        end
    | Err e => Err e
    end.

Definition fail {A} (e : Failure) : Gen A := fun _ => Err e.

Definition tlog (m : LogMsg) : Gen unit := fun r => Ok (tt, r, [m]).

Definition assert (b : bool) : Gen unit :=
  fun r => if b then Ok (tt, r, []) else Err AssertionFailed.

(** Modelled from the spec: [randRange(low, high, rng)] draws from
    [[low, high)]. *)
Definition randRange (low high : Z) : Gen Z :=
  fun r => let '(v, r') := range low (high - 1) r in Ok (v, r', []).

(** Modelled from the spec: [frand(rng)] draws a float of [[0, 1)]. *)
Definition frand : Gen spec_float :=
  fun r => let '(p, r') := unitFloat r in Ok (p, r', []).

Definition shuffle (l : list VoxelCoords) : Gen (list VoxelCoords) :=
  fun r => let '(l', r') := permute l r in Ok (l', r', []).

End GenMonad.

Declare Scope gen_scope.
Delimit Scope gen_scope with gen.
Notation "x <- m ;; k" := (bind m (fun x => k))
  (at level 100, m at next level, right associativity) : gen_scope.
Notation "m ;;; k" := (bind m (fun _ => k))
  (at level 100, right associativity) : gen_scope.

Section GenLoops.
Context `{RngOps}.
Local Open Scope gen_scope.

(** A [for] loop over the values [l] that threads an accumulator. *)
Fixpoint foldGen {A B} (f : B -> A -> Gen B) (l : list A) (acc : B) : Gen B :=
  match l with
  | [] => ret acc
  | a :: l' => acc' <- f acc a ;; foldGen f l' acc'
  end.

End GenLoops.

(** [for (v = lo; v < hi; ++v)] *)
Definition upto (lo hi : Z) : list Z := seqZ lo (hi - lo).

(** [for (v = from; v < limit; v += step)]: the values taken by [v], or
    nothing when the loop is still running after [fuel] rounds. *)
Fixpoint strideValues (fuel : nat) (from limit step : Z) : option (list Z) :=
  match fuel with
  | O => None
  | S fuel' =>
      if from <? limit
      then (from ::.) <$> strideValues fuel' (wrap (from + step)) limit step
      else Some []
  end.

(** The coordinates visited by three nested loops over [xs], [ys] and
    [zs], and the pairs visited by two. *)
Definition cells (xs ys zs : list Z) : list VoxelCoords :=
  x ← xs; y ← ys; z ← zs; [(x, y, z)].

Definition pairs (xs ys : list Z) : list (Z * Z) :=
  x ← xs; y ← ys; [(x, y)].

(** [grid.set(c, VoxelState(true))] for every [c] of [cs], in order. *)
Definition fillSolid (cs : list VoxelCoords) (grid : VoxelGrid) : VoxelGrid :=
  foldl (fun g c => grid_set c (VoxelState_of true) g) grid cs.

(** ** The generators *)

(** The fields of [GridLayoutImpl]: [length] is x, [height] is y, [width]
    is z. *)
Record Layout := mkLayout {
  numAgents : Z;
  lengthX : Z;
  heightY : Z;
  widthZ : Z
}.

Module Basic.
Section Basic.
Context `{RngOps}.
Local Open Scope gen_scope.

(** The constructor: the dimensions are value-initialised. *)
Definition create (numAgents : Z) : Layout := mkLayout numAgents 0 0 0.

(** [GridLayoutImpl::init] *)
Definition init_base (g : Layout) : Gen Layout :=
  length <- randRange 8 30 ;;
  width <- randRange 7 25 ;;
  ret (mkLayout (numAgents g) length (heightY g) width).

Definition init (g : Layout) : Gen Layout :=
  g <- init_base g ;;
  height <- randRange 3 5 ;;
  ret (mkLayout (numAgents g) (lengthX g) height (widthZ g)).

(** The rounds granted to a strided loop that runs up to [limit]. *)
Definition strideFuel (limit : Z) : nat := S (Z.to_nat limit).

Definition generate (g : Layout) (grid : VoxelGrid) : option VoxelGrid :=
  let '(length, height, width) := (lengthX g, heightY g, widthZ g) in
  (* floor *)
  let grid := fillSolid (cells (upto 0 length) [0] (upto 0 width)) grid in
  (* generating the perimeter walls *)
  match strideValues (strideFuel length) 0 length (length - 1) with
  | None => None
  | Some xs =>
      let grid := fillSolid (cells xs (upto 0 height) (upto 0 width)) grid in
      match mapM (fun xy : Z * Z =>
                    match strideValues (strideFuel width) 0 width (width - 1) with
                    | None => None
                    | Some zs => Some (cells [xy.1] [xy.2] zs)
                    end)
                 (pairs (upto 0 length) (upto 0 height)) with
      | None => None
      | Some slabs => Some (fillSolid (mjoin slabs) grid)
      end
  end.

Definition levelExit (g : Layout) (grid : VoxelGrid) : Gen BoundingBox :=
  let exitPadWidth := Z.min 3 (numAgents g) in
  (* make sure exit pad will fit *)
  assert (exitPadWidth <=? widthZ g - 2) ;;;
  xCoord <- randRange (lengthX g - 2) (lengthX g - 1) ;;
  zCoord <- randRange 1 (widthZ g - numAgents g) ;;
  ret (mkBox (xCoord, 1, zCoord) (xCoord + 1, 2, zCoord + exitPadWidth)).

Definition buildingZone (g : Layout) (grid : VoxelGrid) : BoundingBox :=
  mkBox (0, 0, 0) (0, 0, 0).

(** The ten attempts to place one agent. *)
Fixpoint placeAgent (attempts : nat) (g : Layout) (agentPositions : list VoxelCoords)
    : Gen (list VoxelCoords) :=
  match attempts with
  | O => ret agentPositions
  | S attempts' =>
      x <- randRange 1 (lengthX g - 1) ;;
      z <- randRange 1 (widthZ g - 1) ;;
      let agentPos : VoxelCoords := (x, 1, z) in
      if bool_decide (agentPos ∈ agentPositions)
      then placeAgent attempts' g agentPositions
      else ret (agentPositions ++ [agentPos])
  end.

Definition startingPositions (g : Layout) (grid : VoxelGrid) : Gen (list VoxelCoords) :=
  foldGen (fun agentPositions _ => placeAgent 10 g agentPositions)
          (upto 0 (numAgents g)) [].

Definition objectSpawnPositions (g : Layout) (grid : VoxelGrid) : list VoxelCoords := [].

End Basic.
End Basic.

(** ** A concrete sequencer *)

(** A linear congruential generator, used to run the generators on
    examples. The state is the last value drawn. *)
Module Lcg.

Definition step (s : Z) : Z := (s * 1103515245 + 12345) mod 2 ^ 31.

Definition rotate (l : list VoxelCoords) (n : nat) : list VoxelCoords :=
  drop n l ++ take n l.

#[global] Instance ops : RngOps := {|
  Rng := Z;
  seed v := v mod 2 ^ 31;
  range lo hi s := (lo + step s mod (hi - lo + 1), step s);
  unitFloat s := (S754_finite false (Z.to_pos (step s mod 2 ^ 24 + 1)) (-25), step s);
  permute l s := (rotate l (Z.to_nat (step s mod Z.max 1 (Z.of_nat (length l)))), step s)
|}.

End Lcg.

(** ** Vectors and free voxels *)

(** [std::vector<T>(v.begin() + first, v.begin() + last)]: defined only for
    [0 <= first <= last <= v.size()]. *)
Definition subvector {A} (v : list A) (first last : Z) : option (list A) :=
  if (0 <=? first) && (first <=? last) && (last <=? Z.of_nat (length v))
  then Some (take (Z.to_nat (last - first)) (drop (Z.to_nat first) v))
  else None.

(** [for (int y = startY; y > 0; --y)] *)
Definition downfrom (startY : Z) : list Z := reverse (seqZ 1 startY).

(** The innermost loop of [getFreeVoxels]: the first [y], going down, whose
    cell below is solid. *)
Fixpoint firstStandable (grid : VoxelGrid) (x z : Z) (ys : list Z) : list VoxelCoords :=
  match ys with
  | [] => []
  | y :: ys' =>
      if isSolid grid (x, y - 1, z) then [(x, y, z)]
      else firstStandable grid x z ys'
  end.

Definition getFreeVoxels (grid : VoxelGrid) (length width startY : Z) : list VoxelCoords :=
  xz ← pairs (upto 1 (length - 1)) (upto 1 (width - 1));
  firstStandable grid xz.1 xz.2 (downfrom startY).

Section GenHelpers.
Context `{RngOps}.

Definition fromOption {A} (e : Failure) (o : option A) : Gen A :=
  match o with
  | Some a => ret a
  | None => fail e
  end.

End GenHelpers.

Module Walls.
Section Walls.
Context `{RngOps}.
Local Open Scope gen_scope.

Record State := mkState {
  base : Layout;
  maxWallHeight : Z;
  maxWallX : Z;
  firstWallX : Z;
  walls : list (Z * Z);
  agentSpawnCoords : list VoxelCoords;
  objectSpawnCoords : list VoxelCoords
}.

(* parameters *)
Definition tallestWall : Z := 4.
Definition maxNumWalls : Z := 4.

(** The constructor: [firstWallX = 3], everything else empty or zero. *)
Definition create (numAgents : Z) : State :=
  mkState (Basic.create numAgents) 0 0 3 [] [] [].

(** The loop [for (int i = 1; i < numWalls; ++i)] of [init], on the values
    [todo] still to be taken by [i]; [st] carries [walls], [maxWallHeight]
    and [maxWallX]. *)
Fixpoint placeWalls (todo : list Z) (numWalls length prevWallX : Z) (st : State) : Gen State :=
  match todo with
  | [] => ret st
  | i :: rest =>
      wallHeight <- randRange 1 (tallestWall + 1) ;;
      let remainingSpace := 3 + (numWalls - i - 1) * 2 in
      if length - remainingSpace <=? prevWallX + 1
      then tlog (CouldNotGenerateWall i) ;;; ret st
      else
        wallX <- randRange (prevWallX + 1) (length - remainingSpace) ;;
        placeWalls rest numWalls length wallX
          (mkState (base st) (Z.max (maxWallHeight st) wallHeight)
                   (Z.max (maxWallX st) wallX) (firstWallX st)
                   (walls st ++ [(wallX, wallHeight)])
                   (agentSpawnCoords st) (objectSpawnCoords st))
  end.

(** [init] up to the choice of the height: the walls. The second
    component is the wall count that was drawn. *)
Definition initWalls (g : State) : Gen (State * Z) :=
  b <- Basic.init (base g) ;;
  numWalls <- randRange 0 (maxNumWalls + 1) ;;
  let minLength := numWalls * 2 + 4 + 3 in
  length <- randRange minLength 35 ;;
  let b := mkLayout (numAgents b) length (heightY b) (widthZ b) in
  let g := mkState b (maxWallHeight g) (maxWallX g) (firstWallX g) (walls g)
                   (agentSpawnCoords g) (objectSpawnCoords g) in
  g <- (if numWalls <=? 0 then ret g
        else
          firstWallX <- randRange 4 (4 + 1 + length - minLength) ;;
          firstWallHeight <- randRange 1 (tallestWall + 1) ;;
          placeWalls (upto 1 numWalls) numWalls length firstWallX
            (mkState b firstWallHeight firstWallX firstWallX
                     (walls g ++ [(firstWallX, firstWallHeight)])
                     (agentSpawnCoords g) (objectSpawnCoords g))) ;;
  height <- randRange 3 5 ;;
  let b := mkLayout (numAgents b) length (height + maxWallHeight g) (widthZ b) in
  ret (mkState b (maxWallHeight g) (maxWallX g) (firstWallX g) (walls g)
               (agentSpawnCoords g) (objectSpawnCoords g), numWalls).

(** The rest of [init]: the spawn positions of agents and objects. *)
Definition initSpawns (g : State) : Gen State :=
  let spawnCandidates := cells (upto 1 (firstWallX g)) [1] (upto 1 (widthZ (base g) - 1)) in
  spawnCandidates <- shuffle spawnCandidates ;;
  let spawnIdx := 0 in
  agentSpawnCoords <-
    fromOption OutOfRange (subvector spawnCandidates 0 (numAgents (base g))) ;;
  let spawnIdx := spawnIdx + numAgents (base g) in
  let minNumObjects := foldl (fun n wall => n + (wall.2 - 1) * 2) 0 (walls g) in
  numObjects <- randRange minNumObjects (minNumObjects + 4) ;;
  let numObjects := Z.min numObjects (Z.of_nat (length spawnCandidates) - spawnIdx) in
  objectSpawnCoords <-
    fromOption OutOfRange (subvector spawnCandidates spawnIdx (spawnIdx + numObjects)) ;;
  ret (mkState (base g) (maxWallHeight g) (maxWallX g) (firstWallX g) (walls g)
               agentSpawnCoords objectSpawnCoords).

Definition init (g : State) : Gen State :=
  gn <- initWalls g ;;
  initSpawns gn.1.

Definition generate (g : State) (grid : VoxelGrid) : option VoxelGrid :=
  match Basic.generate (base g) grid with
  | None => None
  | Some grid =>
      Some (foldl (fun grid (wall : Z * Z) =>
                     fillSolid (cells [wall.1] (upto 1 (1 + wall.2))
                                      (upto 1 (widthZ (base g) - 1))) grid)
                  grid (walls g))
  end.

Definition startingPositions (g : State) (grid : VoxelGrid) : list VoxelCoords :=
  agentSpawnCoords g.

Definition objectSpawnPositions (g : State) (grid : VoxelGrid) : list VoxelCoords :=
  objectSpawnCoords g.

Definition levelExit (g : State) (grid : VoxelGrid) : Gen BoundingBox :=
  let exitPadWidth := Z.min 3 (numAgents (base g)) in
  (* make sure exit pad will fit *)
  assert (exitPadWidth <=? widthZ (base g) - 2) ;;;
  exitX <- randRange (maxWallX g + 1) (lengthX (base g) - 1) ;;
  exitZ <- randRange 1 (widthZ (base g) - 1 - exitPadWidth) ;;
  ret (mkBox (exitX, 1, exitZ) (exitX + 1, 2, exitZ + exitPadWidth)).

End Walls.
End Walls.

(** ** Single-precision floats *)

(** The [float] operations of the cave growth, in IEEE 754 binary32. *)
Module F32.

Definition prec : Z := 24.
Definition emax : Z := 128.

Definition mul (x y : spec_float) : spec_float := SFmul prec emax x y.

(** [x > y] *)
Definition gt (x y : spec_float) : bool := SFltb y x.

(** [0.8f] and [0.995f] *)
Definition c0_8 : spec_float := S754_finite false 13421773 (-24).
Definition c0_995 : spec_float := S754_finite false 16693330 (-24).

End F32.

Module Cave.
Section Cave.
Context `{RngOps}.
Local Open Scope gen_scope.

Record State := mkState {
  base : Layout;
  caveHeight : Z;
  freeVoxels : list VoxelCoords
}.

Definition create (numAgents : Z) : State := mkState (Basic.create numAgents) 0 [].

Definition init (g : State) : Gen State :=
  b <- Basic.init (base g) ;;
  caveHeight <- randRange 2 5 ;;
  height <- randRange 3 5 ;;
  ret (mkState (mkLayout (numAgents b) (lengthX b) (height + caveHeight) (widthZ b))
               caveHeight (freeVoxels g)).

(** The queue [q], the set [cave] and [growthProb]. *)
Record Growth := mkGrowth {
  queue : list VoxelCoords;
  cave : gset VoxelCoords;
  growthProb : spec_float
}.

(** [std::max(1, std::max(length, width) / 7 + 1)] *)
Definition numSeeds (g : State) : Z :=
  Z.max 1 (Z.max (lengthX (base g)) (widthZ (base g)) ÷ 7 + 1).

(** The body of the loop that plants the seeds. *)
Definition plantSeed (g : State) (st : Growth) (_ : Z) : Gen Growth :=
  seedX <- randRange 2 (lengthX (base g) - 2) ;;
  seedZ <- randRange 2 (widthZ (base g) - 2) ;;
  let initial : VoxelCoords := (seedX, caveHeight g, seedZ) in
  ret (mkGrowth (queue st ++ [initial]) ({[initial]} ∪ cave st) (growthProb st)).

(** The body of the loop over the six directions around [curr]. *)
Definition tryGrow (g : State) (curr : VoxelCoords) (st : Growth) (d : VoxelCoords)
    : Gen Growth :=
  let newCoords := offset curr d in
  p <- frand ;;
  if F32.gt p (growthProb st) then ret st
  else if bool_decide (newCoords ∈ cave st) then ret st
  else if (caveHeight g <? cy newCoords) || (cy newCoords <? 1) then ret st
  else if (lengthX (base g) - 2 <=? cx newCoords) || (cx newCoords <? 2) then ret st
  else if (widthZ (base g) - 1 <? cz newCoords) || (cz newCoords <? 1) then ret st
  else ret (mkGrowth (queue st ++ [newCoords]) ({[newCoords]} ∪ cave st)
                     (F32.mul (growthProb st) F32.c0_995)).

(** [while (!q.empty())] *)
Fixpoint grow (fuel : nat) (g : State) (st : Growth) : Gen Growth :=
  match queue st with
  | [] => ret st
  | curr :: rest =>
      match fuel with
      | O => fail Diverged
      | S fuel' =>
          st' <- foldGen (tryGrow g curr) signedDirections
                         (mkGrowth rest (cave st) (growthProb st)) ;;
          grow fuel' g st'
      end
  end.

(** The cells that the bounds checks of [tryGrow] let through. *)
Definition growRegion (g : State) : list VoxelCoords :=
  cells (upto 2 (lengthX (base g) - 2)) (upto 1 (caveHeight g + 1))
        (upto 1 (widthZ (base g))).

(** The rounds granted to [grow]: every round takes one cell off the queue,
    and the queue only ever receives the seeds and cells of the region. *)
Definition growFuel (g : State) : nat :=
  S (Z.to_nat (numSeeds g) + length (growRegion g)).

(** [generate the top surface] *)
Definition topSurface (g : State) (cave : gset VoxelCoords) (grid : VoxelGrid) : VoxelGrid :=
  foldl (fun grid coords =>
           if bool_decide (coords ∈ cave) then grid
           else grid_set coords (VoxelState_of true) grid)
        grid
        (cells (upto 1 (lengthX (base g))) [caveHeight g] (upto 1 (widthZ (base g)))).

(** [generate the walls of the cave] *)
Definition caveWalls (g : State) (cave : gset VoxelCoords) (grid : VoxelGrid) : VoxelGrid :=
  foldl (fun grid coord =>
           foldl (fun grid d =>
                    let adjacent := offset coord d in
                    if caveHeight g <? cy adjacent then grid
                    else if bool_decide (adjacent ∈ cave) then grid
                    else grid_set adjacent (VoxelState_of true) grid)
                 grid signedDirections)
        grid (elements cave).

Definition generate (g : State) (grid : VoxelGrid) : Gen (State * VoxelGrid) :=
  grid <- fromOption Diverged (Basic.generate (base g) grid) ;;
  (* generate the actual cavity *)
  st <- foldGen (plantSeed g) (upto 0 (numSeeds g)) (mkGrowth [] ∅ F32.c0_8) ;;
  st <- grow (growFuel g) g st ;;
  let grid := topSurface g (cave st) grid in
  let grid := caveWalls g (cave st) grid in
  (* starting positions candidates *)
  freeVoxels <- shuffle (getFreeVoxels grid (lengthX (base g)) (widthZ (base g))
                                       (caveHeight g + 1)) ;;
  ret (mkState (base g) (caveHeight g) freeVoxels, grid).

Definition startingPositions (g : State) (grid : VoxelGrid) : Gen (list VoxelCoords) :=
  fromOption OutOfRange (subvector (freeVoxels g) 0 (numAgents (base g))).

(** The inner loop of [levelExit]: no solid voxel among the [exitPadWidth]
    cells from [v] on along z. *)
Definition padFits (grid : VoxelGrid) (exitPadWidth : Z) (v : VoxelCoords) : bool :=
  forallb (fun z => negb (isSolid grid (cx v, cy v, z))) (upto (cz v) (cz v + exitPadWidth)).

(** [for (int i = int(freeVoxels.size()) - 1; i >= 0; --i)], with [n] one
    more than [i]. *)
Fixpoint scanExit (grid : VoxelGrid) (exitPadWidth : Z) (freeVoxels : list VoxelCoords)
    (n : nat) : option VoxelCoords :=
  match n with
  | O => None
  | S i =>
      match freeVoxels !! i with
      | Some v =>
          if padFits grid exitPadWidth v then Some v
          else scanExit grid exitPadWidth freeVoxels i
      | None => None
      end
  end.

Definition levelExit (g : State) (grid : VoxelGrid) : Gen BoundingBox :=
  let exitPadWidth := Z.min 3 (numAgents (base g)) in
  (* make sure exit pad will fit *)
  assert (exitPadWidth <=? widthZ (base g) - 2) ;;;
  match scanExit grid exitPadWidth (freeVoxels g) (length (freeVoxels g)) with
  | Some v => ret (mkBox v (cx v + 1, cy v + 1, cz v + exitPadWidth))
  | None => ret (mkBox (1, 1, 1) (2, 2, 2))
  end.

End Cave.
End Cave.

Module Tower.
Section Tower.
Context `{RngOps}.
Local Open Scope gen_scope.

Record State := mkState {
  base : Layout;
  agentSpawnCoords : list VoxelCoords;
  objectSpawnCoords : list VoxelCoords;
  buildZoneLength : Z;
  buildZoneWidth : Z;
  materialsLength : Z;
  materialsWidth : Z;
  buildZoneXOffset : Z;
  buildZoneZOffset : Z;
  materialsXOffset : Z;
  materialsZOffset : Z
}.

Definition create (numAgents : Z) : State :=
  mkState (Basic.create numAgents) [] [] 0 0 0 0 0 0 0 0.

(** [while (int(agentSpawnCoords.size()) < numAgents)
       agentSpawnCoords.emplace_back(agentSpawnCoords[0]);]
    with [missing] the number of rounds, [numAgents - size]. *)
Fixpoint padAgents (missing : nat) (agentSpawnCoords : list VoxelCoords)
    : option (list VoxelCoords) :=
  match missing with
  | O => Some agentSpawnCoords
  | S missing' =>
      match agentSpawnCoords !! 0%nat with
      | Some first => padAgents missing' (agentSpawnCoords ++ [first])
      | None => None
      end
  end.

Definition init (g : State) : Gen State :=
  let numAgents := numAgents (base g) in
  height <- randRange 5 7 ;;
  length <- randRange 12 30 ;;
  width <- randRange 12 25 ;;
  (* determine the size and the position of the building zone *)
  buildZoneLength <- randRange 3 9 ;;
  buildZoneWidth <- randRange 3 9 ;;
  materialsLength <- randRange 2 8 ;;
  materialsWidth <- randRange 2 8 ;;
  let length := Z.max (buildZoneLength + materialsLength + 3) length in
  let width := Z.max (buildZoneWidth + materialsWidth + 3) width in
  buildZoneXOffset <- randRange 1 (length - buildZoneLength - 1) ;;
  buildZoneZOffset <- randRange 1 (width - buildZoneWidth - 1) ;;
  materialsXOffset <- randRange 1 (length - materialsLength - 1) ;;
  materialsZOffset <- randRange 1 (width - materialsWidth - 1) ;;
  spawnCandidates <- shuffle (cells (upto 1 (length - 1)) [2] (upto 1 (width - 1))) ;;
  let size := Z.of_nat (List.length spawnCandidates) in
  agentSpawnCoords <-
    fromOption OutOfRange (subvector spawnCandidates 0 (Z.min numAgents size)) ;;
  let spawnIdx := Z.of_nat (List.length agentSpawnCoords) in
  let maxRandomObjects := Z.min (size - numAgents) 25 in
  spawnObjects <- randRange 0 (Z.max 1 maxRandomObjects) ;;
  objectSpawnCoords <-
    fromOption OutOfRange (subvector spawnCandidates spawnIdx (spawnIdx + spawnObjects)) ;;
  let objectSpawnCoords :=
    (fun c : VoxelCoords =>
       if (materialsXOffset <=? cx c) && (cx c <? materialsXOffset + materialsLength)
          && (materialsZOffset <=? cz c) && (cz c <? materialsZOffset + materialsWidth)
       then c
       else (cx c, cy c - 1, cz c))  (* put the object on the floor *)
    <$> objectSpawnCoords in
  (* add the main bulk of materials *)
  let objectSpawnCoords :=
    objectSpawnCoords ++
    cells (upto materialsXOffset (materialsXOffset + materialsLength)) (upto 1 2)
          (upto materialsZOffset (materialsZOffset + materialsWidth)) in
  agentSpawnCoords <-
    fromOption OutOfRange
      (padAgents (Z.to_nat (numAgents - Z.of_nat (List.length agentSpawnCoords)))
                 agentSpawnCoords) ;;
  ret (mkState (mkLayout numAgents length height width)
               agentSpawnCoords objectSpawnCoords
               buildZoneLength buildZoneWidth materialsLength materialsWidth
               buildZoneXOffset buildZoneZOffset materialsXOffset materialsZOffset).

Definition generate (g : State) (grid : VoxelGrid) : option VoxelGrid :=
  Basic.generate (base g) grid.

Definition startingPositions (g : State) (grid : VoxelGrid) : list VoxelCoords :=
  agentSpawnCoords g.

Definition objectSpawnPositions (g : State) (grid : VoxelGrid) : list VoxelCoords :=
  objectSpawnCoords g.

Definition levelExit (g : State) (grid : VoxelGrid) : BoundingBox :=
  mkBox (0, 0, 0) (0, 0, 0).

Definition buildingZone (g : State) (grid : VoxelGrid) : BoundingBox :=
  mkBox (buildZoneXOffset g, 1, buildZoneZOffset g)
        (buildZoneXOffset g + buildZoneLength g, 1, buildZoneZOffset g + buildZoneWidth g).

End Tower.
End Tower.

(** ** The environment *)

Module EnvModel.
Section Env.
Context `{RngOps}.
Local Open Scope gen_scope.

(** Modelled from the spec: the [LayoutGenerator] that [Env] owns is not
    part of the sources at hand, only its calls in [Env::reset] are. Its
    operations are taken as an interface over a generator state [G]; each
    runs on the one sequencer of the environment and may update the
    generator and the grid it is handed. *)
Class LayoutGeneratorOps (G : Type) := {
  lg_init : G -> Gen G;
  lg_generateFloorWalls : G -> VoxelGrid -> Gen (G * VoxelGrid);
  lg_generateCave : G -> VoxelGrid -> Gen (G * VoxelGrid);
  lg_extractPrimitives : G -> VoxelGrid -> Gen (G * VoxelGrid * list BoundingBox);
  lg_levelExit : G -> Z -> Gen (G * BoundingBox);
  lg_startingPositions : G -> Gen (G * list VoxelCoords)
}.

(** Modelled from the spec: the generator parameters are replaced wholesale
    by [init] on every reset, nothing of the previous level survives. *)
Definition init_replaces {G} (ops : LayoutGeneratorOps G) : Prop :=
  forall g g' : G, lg_init g = lg_init g'.

Context {G : Type} {ops : LayoutGeneratorOps G}.

(** The state of [Env] that [seed] and [reset] touch. The scene graph and
    the agent objects belong to the rendering layer and are left out. *)
Record Env := mkEnv {
  numAgents : Z;
  rng : Rng;
  episodeDuration : Z;
  grid : VoxelGrid;
  layoutGenerator : G;
  layoutDrawables : list BoundingBox;
  exitPad : BoundingBox;
  agentStartingPositions : list VoxelCoords;
  log : list LogMsg
}.

(** [(unsigned long)seedValue] *)
Definition to_ulong (v : Z) : Z := v mod 2 ^ 64.

(** [rng.seed(v)] *)
Definition reseed (v : Z) : Gen unit := fun _ => Ok (tt, seed v, []).

Definition seedEnv (seedValue : Z) (e : Env) : Env :=
  mkEnv (numAgents e) (seed (to_ulong seedValue)) (episodeDuration e) (grid e)
        (layoutGenerator e) (layoutDrawables e) (exitPad e) (agentStartingPositions e)
        (log e).

(** What [reset] computes: the new values of [episodeDuration], [grid],
    [layoutGenerator], [layoutDrawables], [exitPad] and
    [agentStartingPositions]. *)
Definition resetGen (e : Env)
    : Gen (Z * VoxelGrid * G * list BoundingBox * BoundingBox * list VoxelCoords) :=
  seedValue <- randRange 0 10000 ;;
  reseed (to_ulong seedValue) ;;;
  tlog (UsingSeed seedValue) ;;;
  let episodeDuration := 0 in
  (* delete the previous layout/state *)
  let grid := grid_clear (grid e) in
  gen <- lg_init (layoutGenerator e) ;;
  gg <- lg_generateFloorWalls gen grid ;;
  gg <- lg_generateCave gg.1 gg.2 ;;
  ggd <- lg_extractPrimitives gg.1 gg.2 ;;
  let '(gen, grid, layoutDrawables) := ggd in
  ge <- lg_levelExit gen (numAgents e) ;;
  let '(gen, exitPad) := ge in
  gp <- lg_startingPositions gen ;;
  let '(gen, possibleStartingPositions) := gp in
  possibleStartingPositions <- shuffle possibleStartingPositions ;;
  agentStartingPositions <-
    fromOption OutOfRange (subvector possibleStartingPositions 0 (numAgents e)) ;;
  ret (episodeDuration, grid, gen, layoutDrawables, exitPad, agentStartingPositions).

Definition reset (e : Env) : Result Env :=
  match resetGen e (rng e) with
  | Ok (episodeDuration, grid, gen, layoutDrawables, exitPad, agentStartingPositions, r, l) =>
      Ok (mkEnv (numAgents e) r episodeDuration grid gen layoutDrawables exitPad
                agentStartingPositions (log e ++ l))
  | Err x => Err x
  end.

(** The generation pipeline: [seed], then [reset]. *)
Definition pipeline (seedValue : Z) (e : Env) : Result Env :=
  reset (seedEnv seedValue e).

(** What a run of the pipeline leaves behind, the log apart: the grid, the
    primitives, the derived regions, and the generator and sequencer that
    the next reset starts from. *)
Definition outcome (r : Result Env)
    : Result (VoxelGrid * list BoundingBox * BoundingBox * list VoxelCoords * G * Rng * Z) :=
  match r with
  | Ok e => Ok (grid e, layoutDrawables e, exitPad e, agentStartingPositions e,
                layoutGenerator e, rng e, episodeDuration e)
  | Err x => Err x
  end.

End Env.
Arguments Env {_} G.
End EnvModel.

(** ** Example inputs *)

Module Examples.

(** Two solid voxels side by side and a non-solid entry. *)
Definition slab : VoxelGrid :=
  fillSolid [(0, 0, 0); (1, 0, 0)] (grid_set (1, 1, 0) (VoxelState_of false) ∅).

(** A room for two agents, of length 8, height 3 and width 7. *)
Definition room : Layout := mkLayout 2 8 3 7.

(** A cave generator for two agents with a cave of height 2, before
    [generate] and after it has found two free voxels. *)
Definition cavern : Cave.State := Cave.mkState (mkLayout 2 8 6 7) 2 [].

Definition cavernFree : Cave.State :=
  Cave.mkState (mkLayout 2 8 6 7) 2 [(3, 1, 3); (4, 1, 2)].

(** A generator for [Env] made of the Basic generator: the dimensions are
    its state, the number of agents comes with [levelExit], and the
    candidates for the starting positions are the interior cells. *)
Definition roomOps : EnvModel.LayoutGeneratorOps Layout := {|
  EnvModel.lg_init := fun _ => Basic.init (Basic.create 0);
  EnvModel.lg_generateFloorWalls := fun g grid =>
    bind (fromOption Diverged (Basic.generate g grid)) (fun grid' => ret (g, grid'));
  EnvModel.lg_generateCave := fun g grid => ret (g, grid);
  EnvModel.lg_extractPrimitives := fun g grid =>
    bind (fromOption Diverged (Extract.extractPrimitives grid))
         (fun boxes => ret (g, grid, boxes));
  EnvModel.lg_levelExit := fun g agents =>
    bind (Basic.levelExit (mkLayout agents (lengthX g) (heightY g) (widthZ g)) ∅)
         (fun box => ret (g, box));
  EnvModel.lg_startingPositions := fun g =>
    ret (g, cells (upto 1 (lengthX g - 1)) [1] (upto 1 (widthZ g - 1)))
|}.

(** Two environments for two agents that differ in everything else. *)
Definition envFresh : EnvModel.Env Layout :=
  EnvModel.mkEnv 2 (seed 1) 0 ∅ (Basic.create 0) [] (mkBox (0, 0, 0) (0, 0, 0)) [] [].

Definition envUsed : EnvModel.Env Layout :=
  EnvModel.mkEnv 2 (seed 99) 250 slab room [mkBox (0, 0, 0) (1, 0, 0)]
                 (mkBox (6, 1, 1) (7, 2, 3)) [(1, 1, 1)] [UsingSeed 17].

End Examples.

(** * Properties *)

(** ** Machine integers and boxes *)

Lemma wrap_id z : int_min <= z <= int_max -> wrap z = z.
Proof.
  unfold wrap, int_min, int_max. intros H.
  rewrite Z.mod_small; lia.
Qed.

Lemma wrap_succ z : inner_int z -> wrap (z + 1) = z + 1.
Proof. unfold inner_int. intros H. apply wrap_id. lia. Qed.

Lemma wrap_pred z : inner_int z -> wrap (z - 1) = z - 1.
Proof. unfold inner_int. intros H. apply wrap_id. lia. Qed.

Definition wfBox (b : BoundingBox) : Prop :=
  cx (bmin b) <= cx (bmax b) /\ cy (bmin b) <= cy (bmax b) /\ cz (bmin b) <= cz (bmax b).

(** [inside b B]: the box [b] lies within the box [B]. *)
Definition inside (b B : BoundingBox) : Prop :=
  (cx (bmin B) <= cx (bmin b) /\ cy (bmin B) <= cy (bmin b) /\ cz (bmin B) <= cz (bmin b)) /\
  (cx (bmax b) <= cx (bmax B) /\ cy (bmax b) <= cy (bmax B) /\ cz (bmax b) <= cz (bmax B)).

Ltac coords :=
  repeat match goal with
         | c : VoxelCoords |- _ => destruct c as [[? ?] ?]
         | b : BoundingBox |- _ => destruct b as [[[? ?] ?] [[? ?] ?]]
         end;
  unfold covers, wfBox, inside, addPoint, cx, cy, cz in *; simpl in *.

Lemma coversb_covers b c : coversb b c = true <-> covers b c.
Proof.
  unfold coversb, covers. rewrite !andb_true_iff, !Z.leb_le. tauto.
Qed.

Lemma covers_point c c' : covers (mkBox c c) c' <-> c' = c.
Proof.
  coords. split.
  - intros H. repeat f_equal; lia.
  - intros [= -> -> ->]. lia.
Qed.

Lemma addPoint_inside b v : inside b (addPoint b v) /\ covers (addPoint b v) v.
Proof. coords. lia. Qed.

Lemma foldl_addPoint_grows l : forall b,
  inside b (foldl addPoint b l) /\ Forall (covers (foldl addPoint b l)) l.
Proof.
  induction l as [|v l IH]; intros b; simpl.
  - split; [coords; lia | constructor].
  - destruct (IH (addPoint b v)) as [Hin Hall].
    destruct (addPoint_inside b v) as [Hb Hv].
    split; [|constructor; [|exact Hall]].
    + revert Hin Hb. generalize (foldl addPoint (addPoint b v) l), (addPoint b v).
      intros b2 b1. clear. coords. lia.
    + revert Hin Hv. generalize (foldl addPoint (addPoint b v) l), (addPoint b v).
      intros b2 b1. clear. coords. lia.
Qed.

Lemma foldl_addPoint_within (B : BoundingBox) l : forall b,
  inside b B -> Forall (covers B) l -> inside (foldl addPoint b l) B.
Proof.
  induction l as [|v l IH]; intros b Hb Hl; simpl; [exact Hb|].
  inversion Hl as [|? ? Hv Hl']; subst.
  apply IH; [|exact Hl'].
  clear -Hb Hv. coords. lia.
Qed.

Lemma foldl_addPoint_hull b l (B : BoundingBox) :
  inside b B -> Forall (covers B) l ->
  (bmin B = bmin b \/ bmin B ∈ l) -> (bmax B = bmax b \/ bmax B ∈ l) ->
  foldl addPoint b l = B.
Proof.
  intros Hb Hl Hmin Hmax.
  pose proof (foldl_addPoint_within B l b Hb Hl) as Hin.
  destruct (foldl_addPoint_grows l b) as [Hgrow Hall].
  rewrite Forall_forall in Hall.
  assert (covers (foldl addPoint b l) (bmin B) \/ bmin B = bmin b) as Hlo
    by (destruct Hmin; [right|left]; auto).
  assert (covers (foldl addPoint b l) (bmax B) \/ bmax B = bmax b) as Hhi
    by (destruct Hmax; [right|left]; auto).
  revert Hin Hgrow Hlo Hhi. generalize (foldl addPoint b l). intros b'.
  clear. intros Hin Hgrow Hlo Hhi.
  destruct b' as [[[a0 a1] a2] [[a3 a4] a5]], B as [[[b0 b1] b2] [[b3 b4] b5]],
    b as [[[c0 c1] c2] [[c3 c4] c5]].
  unfold covers, inside, cx, cy, cz in *; simpl in *.
  assert (a0 = b0 /\ a1 = b1 /\ a2 = b2) as (-> & -> & ->).
  { destruct Hlo as [Hlo|Hlo]; [lia|]. injection Hlo as -> -> ->. lia. }
  assert (a3 = b3 /\ a4 = b4 /\ a5 = b5) as (-> & -> & ->).
  { destruct Hhi as [Hhi|Hhi]; [lia|]. injection Hhi as -> -> ->. lia. }
  reflexivity.
Qed.

(** ** Primitive extraction: the boxes partition the solid voxels *)

Module ExtractFacts.
Import Extract.

Lemma signedDirections_eq :
  signedDirections = [(-1, 0, 0); (1, 0, 0); (0, -1, 0); (0, 1, 0); (0, 0, -1); (0, 0, 1)].
Proof. reflexivity. Qed.

Lemma elem_of_rangeValues r v : v ∈ rangeValues r <-> rmin r <= v <= rmax r.
Proof. unfold rangeValues. rewrite elem_of_seqZ. lia. Qed.

Lemma elem_of_layerCoords xl yl zl c :
  c ∈ layerCoords xl yl zl <->
  rmin xl <= cx c <= rmax xl /\ rmin yl <= cy c <= rmax yl /\ rmin zl <= cz c <= rmax zl.
Proof.
  unfold layerCoords. split.
  - intros Hc.
    apply list_elem_of_bind in Hc as (x & Hc & Hx).
    apply list_elem_of_bind in Hc as (y & Hc & Hy).
    apply list_elem_of_bind in Hc as (z & Hc & Hz).
    apply list_elem_of_singleton in Hc. subst c.
    apply elem_of_rangeValues in Hx, Hy, Hz. auto.
  - intros (Hx & Hy & Hz). destruct c as [[x y] z]. unfold cx, cy, cz in *; simpl in *.
    apply list_elem_of_bind. exists x. split; [|by apply elem_of_rangeValues].
    apply list_elem_of_bind. exists y. split; [|by apply elem_of_rangeValues].
    apply list_elem_of_bind. exists z. split; [|by apply elem_of_rangeValues].
    by apply list_elem_of_singleton.
Qed.

(** The layer scanned when the box [b] tries to grow in direction [d]. *)
Definition layerOf (b : BoundingBox) (d : VoxelCoords) : list VoxelCoords :=
  layerCoords (startEndCoord (cx (bmin b)) (cx (bmax b)) (cx d))
              (startEndCoord (cy (bmin b)) (cy (bmax b)) (cy d))
              (startEndCoord (cz (bmin b)) (cz (bmax b)) (cz d)).

Lemma layer_grow b d :
  wfBox b -> inner_coords (bmin b) -> inner_coords (bmax b) -> d ∈ signedDirections ->
  (exists c, c ∈ layerOf b d) /\
  wfBox (foldl addPoint b (layerOf b d)) /\
  (forall c, covers (foldl addPoint b (layerOf b d)) c <-> covers b c \/ c ∈ layerOf b d).
Proof.
  intros Hwf Hlo Hhi Hd.
  rewrite signedDirections_eq in Hd.
  destruct b as [[[x0 y0] z0] [[x1 y1] z1]].
  unfold wfBox, inner_coords, cx, cy, cz in Hwf, Hlo, Hhi; simpl in Hwf, Hlo, Hhi.
  destruct Hlo as (Hx0 & Hy0 & Hz0), Hhi as (Hx1 & Hy1 & Hz1).
  assert (forall B : BoundingBox,
    wfBox B ->
    inside (mkBox (x0, y0, z0) (x1, y1, z1)) B ->
    (forall c, c ∈ layerOf (mkBox (x0, y0, z0) (x1, y1, z1)) d -> covers B c) ->
    (bmin B = (x0, y0, z0) \/ bmin B ∈ layerOf (mkBox (x0, y0, z0) (x1, y1, z1)) d) ->
    (bmax B = (x1, y1, z1) \/ bmax B ∈ layerOf (mkBox (x0, y0, z0) (x1, y1, z1)) d) ->
    (forall c, covers B c -> covers (mkBox (x0, y0, z0) (x1, y1, z1)) c \/
                             c ∈ layerOf (mkBox (x0, y0, z0) (x1, y1, z1)) d) ->
    (exists c, c ∈ layerOf (mkBox (x0, y0, z0) (x1, y1, z1)) d) ->
    (exists c, c ∈ layerOf (mkBox (x0, y0, z0) (x1, y1, z1)) d) /\
    wfBox (foldl addPoint (mkBox (x0, y0, z0) (x1, y1, z1))
             (layerOf (mkBox (x0, y0, z0) (x1, y1, z1)) d)) /\
    (forall c, covers (foldl addPoint (mkBox (x0, y0, z0) (x1, y1, z1))
                         (layerOf (mkBox (x0, y0, z0) (x1, y1, z1)) d)) c <->
               covers (mkBox (x0, y0, z0) (x1, y1, z1)) c \/
               c ∈ layerOf (mkBox (x0, y0, z0) (x1, y1, z1)) d)) as Hull.
  { intros B HwB HbB HL Hmin Hmax Hsplit Hne.
    rewrite (foldl_addPoint_hull _ _ B HbB (proj2 (Forall_forall _ _) HL) Hmin Hmax).
    split; [exact Hne|]. split; [exact HwB|].
    intros c. split; [apply Hsplit|].
    intros [Hc|Hc]; [|by apply HL].
    clear -Hc HbB. coords. lia. }
  assert (forall c, c ∈ layerOf (mkBox (x0, y0, z0) (x1, y1, z1)) d <->
    rmin (startEndCoord x0 x1 (cx d)) <= cx c <= rmax (startEndCoord x0 x1 (cx d)) /\
    rmin (startEndCoord y0 y1 (cy d)) <= cy c <= rmax (startEndCoord y0 y1 (cy d)) /\
    rmin (startEndCoord z0 z1 (cz d)) <= cz c <= rmax (startEndCoord z0 z1 (cz d))) as HL
    by (intros c; apply elem_of_layerCoords).
  repeat (apply elem_of_cons in Hd as [->|Hd]); [..|by apply elem_of_nil in Hd];
    unfold startEndCoord, cx, cy, cz in HL; simpl in HL;
    rewrite ?(wrap_succ _ Hx1), ?(wrap_succ _ Hy1), ?(wrap_succ _ Hz1),
            ?(wrap_pred _ Hx0), ?(wrap_pred _ Hy0), ?(wrap_pred _ Hz0) in HL.
  - apply (Hull (mkBox (x0 - 1, y0, z0) (x1, y1, z1)));
      [ coords; lia | coords; lia | intros [[? ?] ?] Hc%HL; coords; lia
      | right; apply HL; simpl; lia | left; reflexivity
      | intros [[? ?] ?] Hc; rewrite HL; coords; lia
      | exists (x0 - 1, y0, z0); apply HL; simpl; lia ].
  - apply (Hull (mkBox (x0, y0, z0) (x1 + 1, y1, z1)));
      [ coords; lia | coords; lia | intros [[? ?] ?] Hc%HL; coords; lia
      | left; reflexivity | right; apply HL; simpl; lia
      | intros [[? ?] ?] Hc; rewrite HL; coords; lia
      | exists (x1 + 1, y1, z1); apply HL; simpl; lia ].
  - apply (Hull (mkBox (x0, y0 - 1, z0) (x1, y1, z1)));
      [ coords; lia | coords; lia | intros [[? ?] ?] Hc%HL; coords; lia
      | right; apply HL; simpl; lia | left; reflexivity
      | intros [[? ?] ?] Hc; rewrite HL; coords; lia
      | exists (x0, y0 - 1, z0); apply HL; simpl; lia ].
  - apply (Hull (mkBox (x0, y0, z0) (x1, y1 + 1, z1)));
      [ coords; lia | coords; lia | intros [[? ?] ?] Hc%HL; coords; lia
      | left; reflexivity | right; apply HL; simpl; lia
      | intros [[? ?] ?] Hc; rewrite HL; coords; lia
      | exists (x1, y1 + 1, z1); apply HL; simpl; lia ].
  - apply (Hull (mkBox (x0, y0, z0 - 1) (x1, y1, z1)));
      [ coords; lia | coords; lia | intros [[? ?] ?] Hc%HL; coords; lia
      | right; apply HL; simpl; lia | left; reflexivity
      | intros [[? ?] ?] Hc; rewrite HL; coords; lia
      | exists (x0, y0, z0 - 1); apply HL; simpl; lia ].
  - apply (Hull (mkBox (x0, y0, z0) (x1, y1, z1 + 1)));
      [ coords; lia | coords; lia | intros [[? ?] ?] Hc%HL; coords; lia
      | left; reflexivity | right; apply HL; simpl; lia
      | intros [[? ?] ?] Hc; rewrite HL; coords; lia
      | exists (x1, y1, z1 + 1); apply HL; simpl; lia ].
Qed.

Lemma scanLayer_Some grid visited layer : forall acc expansion,
  scanLayer grid visited layer acc = Some expansion ->
  expansion = acc ++ layer /\ Forall (fun c => blocked grid visited c = false) layer.
Proof.
  induction layer as [|c layer IH]; intros acc expansion; simpl.
  - intros [= <-]. by rewrite app_nil_r.
  - destruct (blocked grid visited c) eqn:Hc; [discriminate|].
    intros H. apply IH in H as [-> Hall]. split; [by rewrite <- app_assoc|].
    by constructor.
Qed.

Lemma blocked_false grid visited c :
  blocked grid visited c = false <-> isSolid grid c = true /\ c ∉ visited.
Proof.
  unfold blocked. rewrite orb_false_iff, negb_false_iff, bool_decide_eq_false. tauto.
Qed.

Lemma commit_visited expansion : forall st,
  (commit st expansion).1 = list_to_set expansion ∪ st.1.
Proof.
  unfold commit. induction expansion as [|c l IH]; intros st; simpl.
  - set_solver.
  - rewrite IH. simpl. set_solver.
Qed.

Lemma commit_bbox expansion : forall st,
  (commit st expansion).2 = foldl addPoint st.2 expansion.
Proof.
  unfold commit. induction expansion as [|c l IH]; intros st; simpl; [done|].
  by rewrite IH.
Qed.

(** The stored solid coordinates stay away from the ends of the [int]
    range. *)
Definition solidInner (grid : VoxelGrid) : Prop :=
  forall c, isSolid grid c = true -> inner_coords c.

(** The invariant of a box under expansion: [visited0] is what had been
    visited when the box was seeded. *)
Record expanding (grid : VoxelGrid) (visited0 : gset VoxelCoords) (st : ExpandState) : Prop := {
  ex_wf : wfBox st.2;
  ex_visited : forall c, c ∈ st.1 <-> c ∈ visited0 \/ covers st.2 c;
  ex_fresh : forall c, covers st.2 c -> c ∉ visited0;
  ex_solid : forall c, c ∈ st.1 -> isSolid grid c = true
}.

Lemma isSolid_dom grid c : isSolid grid c = true -> c ∈ dom grid.
Proof.
  unfold isSolid, grid_get. intros H. apply elem_of_dom.
  destruct (grid !! c); [eauto | discriminate].
Qed.

Lemma expanding_size grid visited0 st :
  expanding grid visited0 st -> (size st.1 <= size grid)%nat.
Proof.
  intros Hex. rewrite <- (size_dom (D := gset VoxelCoords)).
  apply subseteq_size. intros c Hc. apply isSolid_dom. by apply (ex_solid _ _ _ Hex).
Qed.

Lemma expanding_corners grid visited0 st :
  solidInner grid -> expanding grid visited0 st ->
  inner_coords (bmin st.2) /\ inner_coords (bmax st.2).
Proof.
  intros Hin Hex. pose proof (ex_wf _ _ _ Hex) as Hwf.
  split; apply Hin, (ex_solid _ _ _ Hex), (ex_visited _ _ _ Hex); right;
    clear -Hwf; destruct st as [v b]; simpl in *; coords; lia.
Qed.

Lemma expanding_commit grid visited0 st d :
  solidInner grid -> d ∈ signedDirections -> expanding grid visited0 st ->
  Forall (fun c => blocked grid st.1 c = false) (layerOf st.2 d) ->
  expanding grid visited0 (commit st (layerOf st.2 d)) /\
  (size st.1 < size (commit st (layerOf st.2 d)).1)%nat.
Proof.
  intros Hin Hd Hex Hall.
  destruct (expanding_corners _ _ _ Hin Hex) as [Hlo Hhi].
  destruct (layer_grow st.2 d (ex_wf _ _ _ Hex) Hlo Hhi Hd) as ((c0 & Hc0) & Hwf & Hcov).
  rewrite Forall_forall in Hall.
  assert (forall c, c ∈ layerOf st.2 d -> isSolid grid c = true /\ c ∉ st.1) as Hlayer
    by (intros c Hc; by apply blocked_false, Hall).
  split.
  - split.
    + by rewrite commit_bbox.
    + intros c. rewrite commit_visited, commit_bbox, Hcov, elem_of_union,
        elem_of_list_to_set, (ex_visited _ _ _ Hex). tauto.
    + intros c. rewrite commit_bbox, Hcov. intros [Hc|Hc].
      * by apply (ex_fresh _ _ _ Hex).
      * intros Hc0'. apply (Hlayer c Hc). apply (ex_visited _ _ _ Hex). by left.
    + intros c. rewrite commit_visited, elem_of_union, elem_of_list_to_set.
      intros [Hc|Hc]; [by apply Hlayer | by apply (ex_solid _ _ _ Hex)].
  - apply subset_size. rewrite commit_visited. split; [set_solver|].
    intros Hsub. apply (Hlayer c0 Hc0). apply Hsub. set_solver.
Qed.

Lemma expandDir_total grid visited0 d : solidInner grid -> d ∈ signedDirections ->
  forall fuel st, expanding grid visited0 st -> (size grid < fuel + size st.1)%nat ->
  exists st', expandDir fuel grid d st = Some st' /\ expanding grid visited0 st' /\ st.1 ⊆ st'.1.
Proof.
  intros Hin Hd. induction fuel as [|fuel IH]; intros st Hex Hfuel.
  - pose proof (expanding_size _ _ _ Hex). lia.
  - simpl. fold (layerOf st.2 d).
    destruct (scanLayer grid st.1 (layerOf st.2 d) []) as [expansion|] eqn:Hscan.
    + apply scanLayer_Some in Hscan as [-> Hall]. simpl.
      destruct (expanding_commit _ _ _ _ Hin Hd Hex Hall) as [Hex' Hsize].
      destruct (IH _ Hex') as (st' & Hrun & Hst' & Hsub); [lia|].
      exists st'. split; [exact Hrun|]. split; [exact Hst'|].
      etrans; [|exact Hsub]. rewrite commit_visited. set_solver.
    + exists st. done.
Qed.

Lemma expandAll_total grid visited0 st :
  solidInner grid -> expanding grid visited0 st ->
  exists st', expandAll (S (size grid)) grid st = Some st' /\
              expanding grid visited0 st' /\ st.1 ⊆ st'.1.
Proof.
  intros Hin. unfold expandAll.
  assert (Forall (fun d => d ∈ signedDirections) signedDirections) as Hds
    by (apply Forall_forall; auto).
  revert st Hds. generalize signedDirections at 2 3.
  assert (size grid < S (size grid))%nat as Hfuel by lia.
  revert Hfuel. generalize (S (size grid)). intros fuel Hfuel.
  intros ds. induction ds as [|d ds IH]; intros st Hds Hex; cbn [foldl].
  - exists st. done.
  - inversion Hds as [|? ? Hd Hds']; subst.
    destruct (expandDir_total grid visited0 d Hin Hd fuel st Hex)
      as (st1 & Hst1 & Hex1 & Hsub1); [lia|].
    cbn [mbind option_bind]. rewrite Hst1.
    destruct (IH st1 Hds' Hex1) as (st' & Hrun & Hex' & Hsub').
    exists st'. split; [exact Hrun|]. split; [exact Hex'|]. set_solver.
Qed.

(** The invariant of the outer loop: the visited set is the coverage of the
    boxes emitted so far, which are solid and pairwise disjoint. *)
Record extracted (grid : VoxelGrid) (acc : ExtractState) : Prop := {
  xt_cover : forall c, c ∈ acc.1 <-> exists b, b ∈ acc.2 /\ covers b c;
  xt_solid : forall c, c ∈ acc.1 -> isSolid grid c = true;
  xt_disjoint : forall (i j : nat) b1 b2 c,
    acc.2 !! i = Some b1 -> acc.2 !! j = Some b2 -> covers b1 c -> covers b2 c -> i = j
}.

Lemma extracted_snoc grid visited boxes st :
  extracted grid (visited, boxes) -> expanding grid visited st ->
  extracted grid (st.1, boxes ++ [st.2]).
Proof.
  intros Hx Hex. split; simpl.
  - intros c. rewrite (ex_visited _ _ _ Hex), (xt_cover _ _ Hx). simpl. split.
    + intros [(b & Hb & Hc)|Hc].
      * exists b. split; [|done]. apply elem_of_app. by left.
      * exists st.2. split; [|done]. apply elem_of_app. right. by apply list_elem_of_singleton.
    + intros (b & Hb & Hc). apply elem_of_app in Hb as [Hb|Hb].
      * left. by exists b.
      * apply list_elem_of_singleton in Hb. subst b. by right.
  - apply (ex_solid _ _ _ Hex).
  - assert (forall (i : nat) b c, boxes !! i = Some b -> covers b c -> covers st.2 c -> False)
      as Hclash.
    { intros i b c Hi Hb Hc. apply (ex_fresh _ _ _ Hex c Hc).
      apply (xt_cover _ _ Hx). exists b. split; [|done]. by eapply list_elem_of_lookup_2. }
    intros i j b1 b2 c Hi Hj H1 H2.
    apply lookup_app_Some in Hi as [Hi|[Hli Hi]], Hj as [Hj|[Hlj Hj]].
    + by apply (xt_disjoint _ _ Hx i j b1 b2 c).
    + apply list_lookup_singleton_Some in Hj as [_ <-]. by destruct (Hclash i b1 c).
    + apply list_lookup_singleton_Some in Hi as [_ <-]. by destruct (Hclash j b2 c).
    + apply list_lookup_singleton_Some in Hi as [Hi _].
      apply list_lookup_singleton_Some in Hj as [Hj _]. lia.
Qed.

Lemma visitEntry_total grid acc coord voxel :
  solidInner grid -> extracted grid acc -> grid !! coord = Some voxel ->
  exists acc', visitEntry (S (size grid)) grid acc (coord, voxel) = Some acc' /\
    extracted grid acc' /\ acc.1 ⊆ acc'.1 /\ (solid voxel = true -> coord ∈ acc'.1).
Proof.
  intros Hin Hx Hget. destruct acc as [visited boxes]. unfold visitEntry.
  destruct (negb (solid voxel) || bool_decide (coord ∈ visited)) eqn:Hskip.
  - exists (visited, boxes). repeat split; try done; try apply Hx.
    simpl. intros Hs. rewrite Hs in Hskip. simpl in Hskip.
    by apply bool_decide_eq_true in Hskip.
  - apply orb_false_iff in Hskip as [Hs Hfresh].
    apply negb_false_iff in Hs. apply bool_decide_eq_false in Hfresh.
    assert (expanding grid visited ({[coord]} ∪ visited, mkBox coord coord)) as Hex.
    { split; simpl.
      - clear. coords. lia.
      - intros c. rewrite covers_point. set_solver.
      - intros c Hc%covers_point. by subst c.
      - intros c [Hc%elem_of_singleton|Hc]%elem_of_union.
        + subst c. unfold isSolid, grid_get. by rewrite Hget.
        + by apply (xt_solid _ _ Hx). }
    destruct (expandAll_total _ _ _ Hin Hex) as (st' & Hrun & Hex' & Hsub).
    rewrite Hrun. cbn [mbind option_bind]. destruct st' as [visited' bbox] eqn:Hst.
    exists (visited', boxes ++ [bbox]). split; [done|]. split; [|split].
    + by apply (extracted_snoc grid visited boxes (visited', bbox)).
    + simpl in *. set_solver.
    + intros _. simpl in *. set_solver.
Qed.

Lemma extract_fold grid : solidInner grid -> forall order acc,
  extracted grid acc -> (forall c v, (c, v) ∈ order -> grid !! c = Some v) ->
  exists acc',
    visitAll grid order acc = Some acc' /\
    extracted grid acc' /\ acc.1 ⊆ acc'.1 /\
    (forall c v, (c, v) ∈ order -> solid v = true -> c ∈ acc'.1).
Proof.
  intros Hin. unfold visitAll.
  induction order as [|[coord voxel] order IH]; intros acc Hx Hord; cbn [foldl].
  - exists acc. repeat split; try done; try apply Hx. intros c v Hc. by apply elem_of_nil in Hc.
  - destruct (visitEntry_total grid acc coord voxel Hin Hx) as (acc1 & Hrun & Hx1 & Hsub1 & Hc1).
    { apply Hord. by left. }
    cbn [mbind option_bind]. rewrite Hrun.
    destruct (IH acc1 Hx1) as (acc' & Hfold & Hx' & Hsub' & Hall).
    { intros c v Hc. apply Hord. by right. }
    exists acc'. split; [exact Hfold|]. split; [exact Hx'|]. split; [set_solver|].
    intros c v [[= -> ->]|Hc]%elem_of_cons Hs; [|by eapply Hall].
    apply Hsub', Hc1, Hs.
Qed.

(** C1. On a grid whose solid coordinates stay off the two ends of the
    [int] range, and for every iteration order of the hash map,
    [extractPrimitives] returns boxes whose coverage is exactly the set of
    solid voxels, no coordinate lying in two of the returned boxes. *)
Theorem extractPrimitives_partition (grid : VoxelGrid)
    (order : list (VoxelCoords * VoxelState)) :
  order ≡ₚ map_to_list grid -> solidInner grid ->
  exists boxes, extractPrimitives_in order grid = Some boxes /\
    (forall c, isSolid grid c = true <-> exists b, b ∈ boxes /\ covers b c) /\
    (forall (i j : nat) b1 b2 c,
        boxes !! i = Some b1 -> boxes !! j = Some b2 ->
        covers b1 c -> covers b2 c -> i = j).
Proof.
  intros Hperm Hin.
  assert (forall c v, (c, v) ∈ order <-> grid !! c = Some v) as Hord.
  { intros c v. rewrite Hperm. apply elem_of_map_to_list. }
  destruct (extract_fold grid Hin order (∅, [])) as (acc' & Hfold & Hx & _ & Hall).
  { split; simpl.
    - intros c. split; [set_solver|]. intros (b & Hb & _). by apply elem_of_nil in Hb.
    - set_solver.
    - intros i j b1 b2 c Hi. by rewrite lookup_nil in Hi. }
  { intros c v. apply Hord. }
  unfold extractPrimitives_in. rewrite Hfold. destruct acc' as [visited boxes]. simpl.
  exists boxes. split; [done|]. split.
  - intros c. rewrite <- (xt_cover _ _ Hx c). simpl. split; [|apply (xt_solid _ _ Hx)].
    unfold isSolid, grid_get. destruct (grid !! c) as [v|] eqn:Hc; [|done].
    intros Hs. apply (Hall c v); [by apply Hord | done].
  - apply (xt_disjoint _ _ Hx).
Qed.

End ExtractFacts.

(** ** Loops and fills *)

Lemma elem_of_upto lo hi v : v ∈ upto lo hi <-> lo <= v < hi.
Proof. unfold upto. rewrite elem_of_seqZ. lia. Qed.

Lemma elem_of_cells xs ys zs c :
  c ∈ cells xs ys zs <-> cx c ∈ xs /\ cy c ∈ ys /\ cz c ∈ zs.
Proof.
  unfold cells. split.
  - intros Hc.
    apply list_elem_of_bind in Hc as (x & Hc & Hx).
    apply list_elem_of_bind in Hc as (y & Hc & Hy).
    apply list_elem_of_bind in Hc as (z & Hc & Hz).
    apply list_elem_of_singleton in Hc. by subst c.
  - intros (Hx & Hy & Hz). destruct c as [[x y] z]. unfold cx, cy, cz in *; simpl in *.
    apply list_elem_of_bind. exists x. split; [|done].
    apply list_elem_of_bind. exists y. split; [|done].
    apply list_elem_of_bind. exists z. split; [|done].
    by apply list_elem_of_singleton.
Qed.

Lemma elem_of_pairs xs ys (p : Z * Z) : p ∈ pairs xs ys <-> p.1 ∈ xs /\ p.2 ∈ ys.
Proof.
  unfold pairs. split.
  - intros Hp.
    apply list_elem_of_bind in Hp as (x & Hp & Hx).
    apply list_elem_of_bind in Hp as (y & Hp & Hy).
    apply list_elem_of_singleton in Hp. by subst p.
  - intros (Hx & Hy). destruct p as [x y]; simpl in *.
    apply list_elem_of_bind. exists x. split; [|done].
    apply list_elem_of_bind. exists y. split; [|done].
    by apply list_elem_of_singleton.
Qed.

Lemma fillSolid_lookup cs : forall grid c,
  fillSolid cs grid !! c =
  if bool_decide (c ∈ cs) then Some (VoxelState_of true) else grid !! c.
Proof.
  unfold fillSolid, grid_set.
  induction cs as [|c0 cs IH]; intros grid c; cbn [foldl].
  - case_bool_decide as Hc; [by apply elem_of_nil in Hc | done].
  - rewrite IH. repeat case_bool_decide; try done.
    + exfalso. set_solver.
    + destruct (decide (c = c0)) as [->|Hne].
      * by rewrite lookup_insert_eq.
      * exfalso. set_solver.
    + rewrite lookup_insert_ne; [done|]. set_solver.
Qed.

Lemma isSolid_fillSolid cs grid c :
  isSolid (fillSolid cs grid) c = bool_decide (c ∈ cs) || isSolid grid c.
Proof.
  unfold isSolid, grid_get. rewrite fillSolid_lookup.
  by destruct (bool_decide (c ∈ cs)).
Qed.

Lemma strideValues_ends n :
  2 <= n <= 2 ^ 30 -> strideValues (Basic.strideFuel n) 0 n (n - 1) = Some [0; n - 1].
Proof.
  intros Hn. unfold Basic.strideFuel.
  destruct (Z.to_nat n) as [|[|k]] eqn:Hk; [lia | lia |].
  assert (wrap (0 + (n - 1)) = n - 1) as H1 by (apply wrap_id; unfold int_min, int_max; lia).
  assert (wrap (n - 1 + (n - 1)) = 2 * n - 2) as H2.
  { replace (n - 1 + (n - 1)) with (2 * n - 2) by lia.
    apply wrap_id. unfold int_min, int_max. lia. }
  cbn [strideValues].
  rewrite (proj2 (Z.ltb_lt 0 n)) by lia. rewrite H1.
  rewrite (proj2 (Z.ltb_lt (n - 1) n)) by lia. rewrite H2.
  rewrite (proj2 (Z.ltb_ge (2 * n - 2) n)) by lia.
  reflexivity.
Qed.

Lemma mapM_const {A B} (f : A -> option B) (h : A -> B) l :
  (forall a, f a = Some (h a)) -> mapM f l = Some (h <$> l).
Proof.
  intros Hf. apply mapM_Some. induction l as [|a l IH]; simpl; constructor; auto.
Qed.

(** ** The room shell of the Basic generator *)

Module BasicFacts.

(** The x- and z-perimeter slabs of [generate], as sets of cells. *)
Definition shellCells (g : Layout) : list VoxelCoords :=
  mjoin ((fun xy : Z * Z => cells [xy.1] [xy.2] [0; widthZ g - 1])
           <$> pairs (upto 0 (lengthX g)) (upto 0 (heightY g))).

Lemma generate_eq (g : Layout) grid :
  2 <= lengthX g <= 2 ^ 30 -> 2 <= widthZ g <= 2 ^ 30 ->
  Basic.generate g grid =
  Some (fillSolid (shellCells g)
          (fillSolid (cells [0; lengthX g - 1] (upto 0 (heightY g)) (upto 0 (widthZ g)))
             (fillSolid (cells (upto 0 (lengthX g)) [0] (upto 0 (widthZ g))) grid))).
Proof.
  intros Hl Hw. unfold Basic.generate.
  rewrite (strideValues_ends _ Hl), (strideValues_ends _ Hw).
  rewrite (mapM_const _ (fun xy : Z * Z => cells [xy.1] [xy.2] [0; widthZ g - 1])); done.
Qed.

Lemma elem_of_shellCells g c :
  c ∈ shellCells g <->
  0 <= cx c < lengthX g /\ 0 <= cy c < heightY g /\ (cz c = 0 \/ cz c = widthZ g - 1).
Proof.
  unfold shellCells. rewrite list_elem_of_join. split.
  - intros (l & Hc & Hl). apply list_elem_of_fmap in Hl as (xy & -> & Hxy).
    apply elem_of_pairs in Hxy as [Hx%elem_of_upto Hy%elem_of_upto].
    apply elem_of_cells in Hc as (Hcx & Hcy & Hcz).
    apply list_elem_of_singleton in Hcx, Hcy. rewrite Hcx, Hcy.
    split; [done|]. split; [done|].
    apply elem_of_cons in Hcz as [?|Hcz]; [by left|].
    apply list_elem_of_singleton in Hcz. by right.
  - intros (Hx & Hy & Hz). exists (cells [cx c] [cy c] [0; widthZ g - 1]). split.
    + apply elem_of_cells. split; [by apply list_elem_of_singleton|].
      split; [by apply list_elem_of_singleton|].
      destruct Hz as [->| ->]; [by left | right; by left].
    + apply list_elem_of_fmap. exists (cx c, cy c). split; [done|].
      apply elem_of_pairs. simpl. by rewrite !elem_of_upto.
Qed.

(** C3. On an empty grid, with a footprint of at least two cells each way,
    [generate] returns a grid where the floor plane and the four perimeter
    slabs are solid and where no interior coordinate above the floor is
    stored. *)
Theorem generate_shell (g : Layout) :
  2 <= lengthX g <= 2 ^ 30 -> 2 <= widthZ g <= 2 ^ 30 ->
  exists grid, Basic.generate g ∅ = Some grid /\
    (forall x z, 0 <= x < lengthX g -> 0 <= z < widthZ g ->
       isSolid grid (x, 0, z) = true) /\
    (forall x y z, 0 <= x < lengthX g -> 0 <= y < heightY g -> 0 <= z < widthZ g ->
       x = 0 \/ x = lengthX g - 1 \/ z = 0 \/ z = widthZ g - 1 ->
       isSolid grid (x, y, z) = true) /\
    (forall x y z, 0 < x < lengthX g - 1 -> 0 < z < widthZ g - 1 -> 0 < y ->
       grid !! (x, y, z) = None /\ isSolid grid (x, y, z) = false).
Proof.
  intros Hl Hw. eexists. split; [by apply generate_eq|].
  split; [|split].
  - intros x z Hx Hz. rewrite !isSolid_fillSolid.
    rewrite (bool_decide_eq_true_2 ((x, 0, z) ∈ cells (upto 0 (lengthX g)) [0] _)).
    + by rewrite !orb_true_r.
    + apply elem_of_cells. unfold cx, cy, cz; simpl.
      rewrite !elem_of_upto, list_elem_of_singleton. lia.
  - intros x y z Hx Hy Hz Hwall. rewrite !isSolid_fillSolid.
    destruct (decide (z = 0 \/ z = widthZ g - 1)) as [Hzw|Hzw].
    + rewrite (bool_decide_eq_true_2 (_ ∈ shellCells g)); [done|].
      apply elem_of_shellCells. unfold cx, cy, cz; simpl. lia.
    + rewrite (bool_decide_eq_true_2 (_ ∈ cells [0; lengthX g - 1] _ _)).
      * by rewrite orb_true_r.
      * apply elem_of_cells. unfold cx, cy, cz; simpl.
        rewrite !elem_of_upto. split; [|lia].
        destruct Hwall as [->|[->|?]]; [by left | right; by left | lia].
  - intros x y z Hx Hz Hy.
    assert (fillSolid (shellCells g)
              (fillSolid (cells [0; lengthX g - 1] (upto 0 (heightY g)) (upto 0 (widthZ g)))
                 (fillSolid (cells (upto 0 (lengthX g)) [0] (upto 0 (widthZ g))) ∅))
            !! (x, y, z) = None) as Hnone.
    { rewrite !fillSolid_lookup.
      rewrite !bool_decide_eq_false_2; [done| | |].
      - rewrite elem_of_cells. unfold cx, cy, cz; simpl.
        rewrite list_elem_of_singleton. lia.
      - rewrite elem_of_cells. unfold cx, cy, cz; simpl.
        intros ([?|[?|?%elem_of_nil]%elem_of_cons]%elem_of_cons & _); [lia | lia | done].
      - rewrite elem_of_shellCells. unfold cx, cy, cz; simpl. lia. }
    split; [done|]. unfold isSolid, grid_get. by rewrite Hnone.
Qed.

End BasicFacts.

(** ** Running generator computations *)

Section GenFacts.
Context `{R : RngOps}.

Lemma bind_silent {A B} (m : Gen A) (k : A -> Gen B) r a r1 :
  m r = Ok (a, r1, []) -> bind m k r = k a r1.
Proof.
  intros Hm. unfold bind. rewrite Hm.
  by destruct (k a r1) as [[[b r2] l2]|e].
Qed.

Lemma bind_run {A B} (m : Gen A) (k : A -> Gen B) r a r1 l1 b r2 l2 :
  m r = Ok (a, r1, l1) -> k a r1 = Ok (b, r2, l2) -> bind m k r = Ok (b, r2, l1 ++ l2).
Proof. intros Hm Hk. unfold bind. by rewrite Hm, Hk. Qed.

Lemma bind_Ok {A B} (m : Gen A) (k : A -> Gen B) r b r2 l :
  bind m k r = Ok (b, r2, l) ->
  exists a r1 l1 l2, m r = Ok (a, r1, l1) /\ k a r1 = Ok (b, r2, l2) /\ l = l1 ++ l2.
Proof.
  unfold bind. destruct (m r) as [[[a r1] l1]|e]; [|discriminate].
  destruct (k a r1) as [[[b' r2'] l2]|e] eqn:Hk; [|discriminate].
  intros [= <- <- <-]. by exists a, r1, l1, l2.
Qed.

Lemma frand_run r : exists p r', frand r = Ok (p, r', []).
Proof. unfold frand. destruct (unitFloat r) as [p r']. by exists p, r'. Qed.

Context {L : RngLaws R}.

Lemma randRange_run low high r :
  exists v r', randRange low high r = Ok (v, r', []) /\ (low < high -> low <= v < high).
Proof.
  unfold randRange. pose proof (range_bounds low (high - 1) r) as Hb.
  destruct (range low (high - 1) r) as [v r']. exists v, r'. split; [done|].
  simpl in Hb. lia.
Qed.

Lemma shuffle_run l r : exists l' r', shuffle l r = Ok (l', r', []) /\ l' ≡ₚ l.
Proof.
  unfold shuffle. pose proof (permute_perm l r) as Hp.
  destruct (permute l r) as [l' r']. by exists l', r'.
Qed.

End GenFacts.

(** [draw v Hv] runs the first [randRange] of the goal: [v] is the value
    drawn and [Hv] its bounds. *)
Ltac draw v Hv :=
  match goal with
  | |- context [bind (randRange ?lo ?hi) ?k ?r] =>
      let r' := fresh "r" in
      let Hrun := fresh "Hrun" in
      destruct (randRange_run lo hi r) as (v & r' & Hrun & Hv);
      rewrite (bind_silent (randRange lo hi) k r v r' Hrun); clear Hrun
  end.

(** ** The exit pad of the Basic generator *)

Module ExitFacts.
Section ExitFacts.
Context `{R : RngOps} {L : RngLaws R}.

Lemma levelExit_assert (g : Layout) grid r :
  widthZ g - 2 < Z.min 3 (numAgents g) -> Basic.levelExit g grid r = Err AssertionFailed.
Proof.
  intros Hw. unfold Basic.levelExit, bind, assert.
  by rewrite (proj2 (Z.leb_gt _ _)) by lia.
Qed.

(** When the agents are at most [width - 2], the pad has z-extent
    [min(3, numAgents)], sits against the far x-wall in the height band
    from 1 to 2, and its z-range lies in [[1, width-1)]. *)
Lemma levelExit_fits (g : Layout) grid r :
  1 <= numAgents g <= widthZ g - 2 ->
  exists z r',
    Basic.levelExit g grid r =
      Ok (mkBox (lengthX g - 2, 1, z) (lengthX g - 1, 2, z + Z.min 3 (numAgents g)), r', []) /\
    1 <= z /\ z + Z.min 3 (numAgents g) <= widthZ g - 1.
Proof.
  intros Hn. unfold Basic.levelExit.
  rewrite (bind_silent _ _ r tt r)
    by (unfold assert; by rewrite (proj2 (Z.leb_le _ _)) by lia).
  draw x Hx. draw z Hz. exists z, r1.
  assert (x = lengthX g - 2) as -> by lia.
  replace (lengthX g - 2 + 1) with (lengthX g - 1) by lia.
  split; [done|]. lia.
Qed.

End ExitFacts.

(** C4. Six agents in a room of width 7: the assertion holds (5 >= 3), the
    z coordinate is then drawn from the empty range [[1, 1)], and the pad
    returned by [levelExit] does not lie in [[1, width-1)]. *)
Lemma levelExit_empty_draw :
  exists box r,
    Basic.levelExit (H := Lcg.ops) (mkLayout 6 8 3 7) ∅ (seed 42) = Ok (box, r, []) /\
    Z.min 3 6 <= 7 - 2 /\
    cz (bmax box) - cz (bmin box) = Z.min 3 6 /\
    ~ (1 <= cz (bmin box) /\ cz (bmax box) <= 7 - 1).
Proof.
  eexists _, _. split; [vm_compute; reflexivity|].
  vm_compute. repeat split; try discriminate.
  intros [_ Hc]. by apply Hc.
Qed.

End ExitFacts.

(** ** The dimensions drawn by [init] *)

Module InitFacts.
Section InitFacts.
Context `{R : RngOps} {L : RngLaws R}.

Lemma Basic_init_run (g : Layout) r :
  exists g' r',
    Basic.init g r = Ok (g', r', []) /\
    numAgents g' = numAgents g /\
    8 <= lengthX g' < 30 /\ 7 <= widthZ g' < 25 /\ 3 <= heightY g' < 5.
Proof.
  unfold Basic.init, Basic.init_base.
  destruct (randRange_run 8 30 r) as (len & r1 & H1 & Hlen).
  destruct (randRange_run 7 25 r1) as (wid & r2 & H2 & Hwid).
  destruct (randRange_run 3 5 r2) as (hei & r3 & H3 & Hhei).
  exists (mkLayout (numAgents g) len hei wid), r3. split; [|simpl; lia].
  rewrite (bind_silent _ _ r (mkLayout (numAgents g) len (heightY g) wid) r2).
  - by rewrite (bind_silent _ _ r2 hei r3 H3).
  - rewrite (bind_silent _ _ r len r1 H1). by rewrite (bind_silent _ _ r1 wid r2 H2).
Qed.

End InitFacts.
End InitFacts.

(** ** The walls of the Walls generator *)

Module WallsFacts.
Section WallsFacts.
Context `{R : RngOps} {L : RngLaws R}.
Import Walls.

(** The x-positions of the walls, in the order of generation. *)
Definition wallXs (g : State) : list Z := fst <$> walls g.

(** The loop that places the walls after the first never fails. It appends
    walls at strictly increasing positions beyond [prevWallX]; either it
    places one wall for every round and logs nothing, or it stops early
    with one warning and fewer walls. *)
Lemma placeWalls_run numWalls length todo :
  Forall (fun i => i < numWalls) todo ->
  forall prevWallX st r,
  exists st' r' log new,
    placeWalls todo numWalls length prevWallX st r = Ok (st', r', log) /\
    walls st' = walls st ++ new /\
    base st' = base st /\ firstWallX st' = firstWallX st /\
    StronglySorted Z.lt (fst <$> new) /\
    Forall (fun w : Z * Z => prevWallX < w.1 < length - 3) new /\
    ((log = [] /\ List.length new = List.length todo) \/
     (exists i, i ∈ todo /\ log = [CouldNotGenerateWall i] /\
                (List.length new < List.length todo)%nat)).
Proof.
  induction todo as [|i todo IH]; intros Htodo prevWallX st r.
  - exists st, r, [], []. simpl. rewrite app_nil_r.
    split_and!; [done | done | done | done | constructor | constructor | by left].
  - inversion Htodo as [|? ? Hi Htodo']; subst. cbn [placeWalls].
    draw wallHeight Hh.
    destruct (length - (3 + (numWalls - i - 1) * 2) <=? prevWallX + 1) eqn:Hroom.
    + exists st, r0, [CouldNotGenerateWall i], []. rewrite app_nil_r.
      split_and!; [done | done | done | done | constructor | constructor |].
      right. exists i. split; [by left|]. split; [done|]. simpl. lia.
    + apply Z.leb_gt in Hroom. draw wallX Hx. specialize (Hx Hroom).
      destruct (IH Htodo' wallX
                  (mkState (base st) (Z.max (maxWallHeight st) wallHeight)
                     (Z.max (maxWallX st) wallX) (firstWallX st)
                     (walls st ++ [(wallX, wallHeight)])
                     (agentSpawnCoords st) (objectSpawnCoords st)) r1)
        as (st' & r' & log & new & Hrun & Hwalls & Hbase & Hfirst & Hsort & Hnew & Hlog).
      exists st', r', log, ((wallX, wallHeight) :: new).
      split; [exact Hrun|]. simpl in Hwalls, Hbase, Hfirst.
      split; [by rewrite Hwalls, <- app_assoc|].
      split; [done|]. split; [done|]. split; [|split].
      * simpl. constructor; [done|].
        apply Forall_fmap. eapply Forall_impl; [exact Hnew|]. simpl. intros w Hw. lia.
      * constructor; [simpl; lia|].
        eapply Forall_impl; [exact Hnew|]. simpl. intros w Hw. lia.
      * destruct Hlog as [[-> Hlen]|(j & Hj & -> & Hlen)].
        -- left. simpl. by rewrite Hlen.
        -- right. exists j. split; [by right|]. split; [done|]. simpl. lia.
Qed.

(** C5. [init] on a freshly constructed Walls generator always gets through
    the placement of the walls. The wall x-positions come out strictly
    increasing and within [[firstWallX, length-1)]; either as many walls as
    the drawn count are generated and nothing is logged, or a warning is
    logged and fewer walls are generated. *)
Theorem init_walls_increasing (agents : Z) (r : Rng) :
  exists g numWalls r' log,
    initWalls (create agents) r = Ok (g, numWalls, r', log) /\
    0 <= numWalls <= maxNumWalls /\
    StronglySorted Z.lt (wallXs g) /\
    Forall (fun x => firstWallX g <= x < lengthX (base g) - 1) (wallXs g) /\
    ((log = [] /\ Z.of_nat (List.length (walls g)) = numWalls) \/
     (exists i, log = [CouldNotGenerateWall i] /\
                Z.of_nat (List.length (walls g)) < numWalls)).
Proof.
  unfold initWalls.
  destruct (InitFacts.Basic_init_run (base (create agents)) r)
    as (b & r1 & Hinit & _ & _ & Hwid & _).
  rewrite (bind_silent _ _ r b r1 Hinit).
  draw numWalls Hn. unfold maxNumWalls in *. specialize (Hn ltac:(lia)).
  draw len Hlen. specialize (Hlen ltac:(lia)).
  cbv zeta. destruct (numWalls <=? 0) eqn:Hzero.
  - apply Z.leb_le in Hzero. assert (numWalls = 0) as -> by lia.
    rewrite (bind_silent _ _ r2 _ r2 eq_refl).
    draw height Hh.
    eexists _, 0, _, []. split; [reflexivity|]. unfold wallXs. simpl.
    split_and!; [lia | lia | constructor | constructor | by left].
  - apply Z.leb_gt in Hzero.
    destruct (randRange_run 4 (4 + 1 + len - (numWalls * 2 + 4 + 3)) r2)
      as (fx & r3 & Hfx & Hfxb). specialize (Hfxb ltac:(lia)).
    destruct (randRange_run 1 (tallestWall + 1) r3) as (fh & r4 & Hfh & _).
    destruct (placeWalls_run numWalls len (upto 1 numWalls)
                ltac:(apply Forall_forall; intros i Hi%elem_of_upto; lia) fx
                (mkState (mkLayout (numAgents b) len (heightY b) (widthZ b))
                   fh fx fx ([] ++ [(fx, fh)]) [] []) r4)
      as (st' & r5 & log & new & Hrun & Hwalls & Hbase & Hfirst & Hsort & Hnew & Hlog).
    destruct (randRange_run 3 5 r5) as (height & r6 & Hheight & _).
    exists (mkState (mkLayout (numAgents b) len (height + maxWallHeight st')
                      (widthZ b))
              (maxWallHeight st') (maxWallX st') (firstWallX st') (walls st')
              (agentSpawnCoords st') (objectSpawnCoords st')), numWalls, r6, log.
    split.
    { replace log with (log ++ []) by apply app_nil_r.
      eapply bind_run; [|by rewrite (bind_silent _ _ r5 height r6 Hheight)].
      rewrite (bind_silent _ _ r2 fx r3 Hfx). rewrite (bind_silent _ _ r3 fh r4 Hfh).
      exact Hrun. }
    simpl in Hwalls, Hfirst. unfold wallXs. simpl. rewrite Hwalls, Hfirst.
    split; [lia|]. split; [|split].
    + simpl. constructor; [done|].
      apply Forall_fmap. eapply Forall_impl; [exact Hnew|]. simpl. intros w Hw. lia.
    + simpl. constructor; [lia|].
      apply Forall_fmap. eapply Forall_impl; [exact Hnew|]. simpl. intros w Hw. lia.
    + assert (List.length (upto 1 numWalls) = Z.to_nat (numWalls - 1)) as Htodo
        by (unfold upto; apply length_seqZ).
      simpl. destruct Hlog as [[-> Hlen']|(j & Hj & -> & Hlen')].
      * left. split; [done|]. lia.
      * right. exists j. split; [done|]. lia.
Qed.

End WallsFacts.
End WallsFacts.

(** ** The cave *)

Module CaveFacts.
Section CaveFacts.
Context `{R : RngOps}.
Import Cave.

(** The bounds that the flood fill checks. *)
Definition inBounds (g : State) (c : VoxelCoords) : Prop :=
  1 <= cy c <= caveHeight g /\
  2 <= cx c < lengthX (base g) - 2 /\
  1 <= cz c <= widthZ (base g) - 1.

(** The state after the cell [c] has been accepted. *)
Definition accept (st : Growth) (c : VoxelCoords) : Growth :=
  mkGrowth (queue st ++ [c]) ({[c]} ∪ cave st) (F32.mul (growthProb st) F32.c0_995).

(** [growthProb] after [k] acceptances. *)
Definition decayed (k : nat) : spec_float :=
  Nat.iter k (fun p => F32.mul p F32.c0_995) F32.c0_8.

Lemma elem_of_growRegion g c : c ∈ growRegion g <-> inBounds g c.
Proof.
  unfold growRegion, inBounds. rewrite elem_of_cells, !elem_of_upto. lia.
Qed.

(** One neighbour: either nothing changes, or a new cell within the bounds
    is accepted and the growth probability is multiplied by 0.995. *)
Lemma tryGrow_run g curr st d r :
  exists st' r',
    tryGrow g curr st d r = Ok (st', r', []) /\
    (st' = st \/
     ((offset curr d ∉ cave st) /\ inBounds g (offset curr d) /\
      st' = accept st (offset curr d))).
Proof.
  unfold tryGrow. destruct (frand_run r) as (p & r' & Hp).
  rewrite (bind_silent _ _ r p r' Hp).
  destruct (F32.gt p (growthProb st)); [exists st, r'; split; [done | by left]|].
  case_bool_decide as Hcave; [exists st, r'; split; [done | by left]|].
  destruct (_ || _) eqn:Hy; [exists st, r'; split; [done | by left]|].
  destruct (_ || _) eqn:Hx in |- *; [exists st, r'; split; [done | by left]|].
  destruct (_ || _) eqn:Hz in |- *; [exists st, r'; split; [done | by left]|].
  exists (accept st (offset curr d)), r'. split; [done|]. right.
  split; [done|]. split; [|done].
  apply orb_false_iff in Hy as [Hy1 Hy2], Hx as [Hx1 Hx2], Hz as [Hz1 Hz2].
  unfold inBounds. lia.
Qed.

(** The cells of the region that are not in the cave yet, and the measure
    that bounds the rounds of [grow]. *)
Definition regionLeft (g : State) (st : Growth) : gset VoxelCoords :=
  list_to_set (growRegion g) ∖ cave st.

Definition measure (g : State) (st : Growth) : nat :=
  (List.length (queue st) + size (regionLeft g st))%nat.

Lemma accept_measure g st c :
  c ∉ cave st -> inBounds g c -> measure g (accept st c) = S (measure g st - 1).
Proof.
  intros Hc Hb. unfold measure, regionLeft, accept. simpl. rewrite length_app. simpl.
  assert (list_to_set (growRegion g) ∖ cave st =
          {[c]} ∪ list_to_set (growRegion g) ∖ ({[c]} ∪ cave st)) as ->.
  { apply set_eq. intros c'. rewrite elem_of_union, !elem_of_difference,
      elem_of_union, elem_of_singleton, !elem_of_list_to_set.
    split.
    - intros [Hr Hn]. destruct (decide (c' = c)) as [->|Hne]; [by left|].
      right. split; [done|]. intros [?|?]; done.
    - intros [->|[Hr Hn]].
      + split; [by apply elem_of_growRegion | done].
      + split; [done|]. intros Hc'. apply Hn. by right. }
  rewrite (size_union ({[c]} : gset VoxelCoords)) by set_solver.
  rewrite size_singleton. lia.
Qed.

(** A property of the growth state kept by every acceptance. *)
Definition keptByAccept (g : State) (P : Growth -> Prop) : Prop :=
  forall st c, P st -> c ∉ cave st -> inBounds g c -> P (accept st c).

Lemma growSteps_run g (P : Growth -> Prop) curr :
  keptByAccept g P ->
  forall ds st r, P st ->
  exists st' r',
    foldGen (tryGrow g curr) ds st r = Ok (st', r', []) /\ P st' /\
    measure g st' = measure g st.
Proof.
  intros HP. induction ds as [|d ds IH]; intros st r Hst; cbn [foldGen].
  - by exists st, r.
  - destruct (tryGrow_run g curr st d r) as (st1 & r1 & Hrun & Hst1).
    rewrite (bind_silent _ _ r st1 r1 Hrun).
    destruct Hst1 as [->|(Hc & Hb & ->)].
    + by apply IH.
    + destruct (IH (accept st (offset curr d)) r1) as (st' & r' & Hfold & HP' & Hm).
      { by apply HP. }
      exists st', r'. split; [done|]. split; [done|].
      rewrite Hm, (accept_measure g st _ Hc Hb).
      assert (measure g st <> 0%nat); [|lia].
      unfold measure, regionLeft.
      assert (offset curr d ∈ list_to_set (growRegion g) ∖ cave st) as Hin.
      { apply elem_of_difference. split; [|done].
        by apply elem_of_list_to_set, elem_of_growRegion. }
      intros Hzero.
      assert (size (list_to_set (growRegion g) ∖ cave st) = 0%nat) as Hsz by lia.
      apply size_empty_inv in Hsz. set_solver.
Qed.

(** A property kept when the head of the queue is taken off. *)
Definition keptByPop (P : Growth -> Prop) : Prop :=
  forall st c rest, P st -> queue st = c :: rest ->
    P (mkGrowth rest (cave st) (growthProb st)).

(** The flood fill ends: with at least [measure] rounds it returns, the
    queue is empty, and whatever is kept by popping and accepting holds of
    the final state. *)
Lemma grow_run g (P : Growth -> Prop) :
  keptByPop P -> keptByAccept g P ->
  forall fuel st r, (measure g st <= fuel)%nat -> P st ->
  exists st' r', grow fuel g st r = Ok (st', r', []) /\ P st' /\ queue st' = [].
Proof.
  intros Hpop Hacc. induction fuel as [|fuel IH]; intros st r Hfuel Hst.
  - destruct (queue st) as [|c rest] eqn:Hq.
    + exists st, r. unfold grow. by rewrite Hq.
    + unfold measure in Hfuel. rewrite Hq in Hfuel. simpl in Hfuel. lia.
  - cbn [grow]. destruct (queue st) as [|c rest] eqn:Hq.
    + by exists st, r.
    + destruct (growSteps_run g P c Hacc signedDirections
                  (mkGrowth rest (cave st) (growthProb st)) r)
        as (st1 & r1 & Hsteps & Hst1 & Hm); [by eapply Hpop|].
      rewrite (bind_silent _ _ r st1 r1 Hsteps).
      apply IH; [|done]. rewrite Hm.
      unfold measure, regionLeft in *. rewrite Hq in Hfuel. simpl in *. lia.
Qed.

Lemma size_list_to_set_le (l : list VoxelCoords) :
  (size (list_to_set l : gset VoxelCoords) <= List.length l)%nat.
Proof.
  induction l as [|c l IH].
  - change (list_to_set [] : gset VoxelCoords) with (∅ : gset VoxelCoords).
    by rewrite size_empty.
  - rewrite list_to_set_cons. cbn [List.length].
    rewrite size_union_alt, size_singleton.
    assert (size (list_to_set l ∖ {[c]} : gset VoxelCoords) <= size (list_to_set l : gset VoxelCoords))%nat
      by (apply subseteq_size; set_solver).
    lia.
Qed.

Context {L : RngLaws R}.

(** The seeds: one cell per round goes to the queue and to the cave, at
    the height of the cave and within the bounds of the flood fill. *)
Lemma plantSeeds_run g (P : Growth -> Prop) :
  (forall st x z, P st -> (2 < lengthX (base g) - 2 -> 2 <= x < lengthX (base g) - 2) ->
                  (2 < widthZ (base g) - 2 -> 2 <= z < widthZ (base g) - 2) ->
                  P (mkGrowth (queue st ++ [(x, caveHeight g, z)])
                              ({[(x, caveHeight g, z)]} ∪ cave st) (growthProb st))) ->
  forall todo st r, P st ->
  exists st' r',
    foldGen (plantSeed g) todo st r = Ok (st', r', []) /\ P st' /\
    List.length (queue st') = (List.length (queue st) + List.length todo)%nat.
Proof.
  intros HP. induction todo as [|i todo IH]; intros st r Hst; cbn [foldGen].
  - exists st, r. split; [done|]. split; [done|]. simpl. lia.
  - unfold plantSeed at 1.
    destruct (randRange_run 2 (lengthX (base g) - 2) r) as (x & r1 & Hx & Hxb).
    destruct (randRange_run 2 (widthZ (base g) - 2) r1) as (z & r2 & Hz & Hzb).
    rewrite (bind_silent _ _ r (mkGrowth (queue st ++ [(x, caveHeight g, z)])
                                  ({[(x, caveHeight g, z)]} ∪ cave st) (growthProb st)) r2).
    + destruct (IH (mkGrowth (queue st ++ [(x, caveHeight g, z)])
                      ({[(x, caveHeight g, z)]} ∪ cave st) (growthProb st)) r2)
        as (st' & r' & Hfold & HP' & Hlen); [by apply HP|].
      exists st', r'. split; [done|]. split; [done|].
      rewrite Hlen. simpl. rewrite length_app. simpl. lia.
    + rewrite (bind_silent _ _ r x r1 Hx). by rewrite (bind_silent _ _ r1 z r2 Hz).
Qed.

Lemma decayed_succ k : F32.mul (decayed k) F32.c0_995 = decayed (S k).
Proof. reflexivity. Qed.

(** C7. With room for the seeds (length and width at least 5, cave height
    at least 1), the seeding and the flood fill both return; every cell of
    the final cave set, seed or accepted neighbour, satisfies
    [1 <= y <= caveHeight], [2 <= x < length-2] and [1 <= z <= width-1];
    and the final growth probability is 0.8 multiplied by 0.995 once for
    every cell accepted by the flood fill. *)
Theorem cave_growth_bounds (g : State) (r : Rng) :
  5 <= lengthX (base g) -> 5 <= widthZ (base g) -> 1 <= caveHeight g ->
  exists seeds r1 final r2,
    foldGen (plantSeed g) (upto 0 (numSeeds g)) (mkGrowth [] ∅ F32.c0_8) r
      = Ok (seeds, r1, []) /\
    grow (growFuel g) g seeds r1 = Ok (final, r2, []) /\
    cave seeds ⊆ cave final /\
    (forall c, c ∈ cave final ->
       1 <= cy c <= caveHeight g /\
       2 <= cx c < lengthX (base g) - 2 /\
       1 <= cz c <= widthZ (base g) - 1) /\
    growthProb final =
      Nat.iter (size (cave final) - size (cave seeds))
               (fun p => F32.mul p F32.c0_995) F32.c0_8.
Proof.
  intros Hlen Hwid Hcave.
  destruct (plantSeeds_run g
              (fun st => (forall c, c ∈ cave st -> inBounds g c) /\ growthProb st = F32.c0_8))
    with (todo := upto 0 (numSeeds g)) (st := mkGrowth [] ∅ F32.c0_8) (r := r)
    as (seeds & r1 & Hseeds & [Hsb Hsp] & Hsq).
  { intros st x z [Hb Hp] Hx Hz. simpl. split; [|done].
    intros c [->%elem_of_singleton|Hc]%elem_of_union; [|by apply Hb].
    unfold inBounds, cx, cy, cz; simpl. lia. }
  { simpl. split; [|done]. intros c Hc. by apply not_elem_of_empty in Hc. }
  destruct (grow_run g
              (fun st => cave seeds ⊆ cave st /\ (forall c, c ∈ cave st -> inBounds g c) /\
                         growthProb st = decayed (size (cave st) - size (cave seeds))))
    with (fuel := growFuel g) (st := seeds) (r := r1)
    as (final & r2 & Hgrow & (Hsub & Hfb & Hfp) & _).
  { intros st c rest H _. exact H. }
  { intros st c (Hsub & Hb & Hp) Hc Hcb. unfold accept. simpl. split; [|split].
    - set_solver.
    - intros c' [->%elem_of_singleton|Hc']%elem_of_union; [done | by apply Hb].
    - rewrite Hp, decayed_succ. f_equal.
      rewrite (size_union ({[c]} : gset VoxelCoords)) by set_solver.
      rewrite size_singleton.
      pose proof (subseteq_size _ _ Hsub). lia. }
  { unfold measure, growFuel, regionLeft. rewrite Hsq. simpl.
    assert (List.length (upto 0 (numSeeds g)) = Z.to_nat (numSeeds g)) as ->
      by (unfold upto; rewrite length_seqZ; f_equal; lia).
    pose proof (size_list_to_set_le (growRegion g)).
    assert (size (list_to_set (growRegion g) ∖ cave seeds)
            <= size (list_to_set (growRegion g) : gset VoxelCoords))%nat
      by (apply subseteq_size; set_solver).
    lia. }
  { split; [done|]. split; [done|]. by rewrite Hsp, Nat.sub_diag. }
  exists seeds, r1, final, r2. split; [done|]. split; [done|]. split; [done|].
  split; [exact Hfb | exact Hfp].
Qed.

Lemma firstStandable_solid grid x z ys c :
  c ∈ firstStandable grid x z ys -> isSolid grid (cx c, cy c - 1, cz c) = true.
Proof.
  induction ys as [|y ys IH]; simpl; [by intros ?%elem_of_nil|].
  destruct (isSolid grid (x, y - 1, z)) eqn:Hs; [|exact IH].
  by intros ->%list_elem_of_singleton.
Qed.

Lemma getFreeVoxels_solid grid length width startY c :
  c ∈ getFreeVoxels grid length width startY -> isSolid grid (cx c, cy c - 1, cz c) = true.
Proof.
  unfold getFreeVoxels. intros (xz & Hc & _)%list_elem_of_bind.
  by eapply firstStandable_solid.
Qed.

(** [generate] returns, and hands back the shuffled free voxels of the grid
    it has built. *)
Lemma generate_run (g : State) grid r :
  2 <= lengthX (base g) <= 2 ^ 30 -> 2 <= widthZ (base g) <= 2 ^ 30 ->
  exists g' grid' r',
    generate g grid r = Ok (g', grid', r', []) /\
    base g' = base g /\ caveHeight g' = caveHeight g /\
    freeVoxels g' ≡ₚ
      getFreeVoxels grid' (lengthX (base g)) (widthZ (base g)) (caveHeight g + 1).
Proof.
  intros Hlen Hwid. unfold generate.
  rewrite (BasicFacts.generate_eq (base g) grid Hlen Hwid). cbn [fromOption].
  rewrite (bind_silent _ _ r _ r eq_refl).
  destruct (plantSeeds_run g (fun _ => True))
    with (todo := upto 0 (numSeeds g)) (st := mkGrowth [] ∅ F32.c0_8) (r := r)
    as (seeds & r1 & Hseeds & _ & Hsq); [done | done |].
  rewrite (bind_silent _ _ r seeds r1 Hseeds).
  destruct (grow_run g (fun _ => True)) with (fuel := growFuel g) (st := seeds) (r := r1)
    as (final & r2 & Hgrow & _ & _); [done | done | | done |].
  { unfold measure, growFuel, regionLeft. rewrite Hsq. simpl.
    assert (List.length (upto 0 (numSeeds g)) = Z.to_nat (numSeeds g)) as ->
      by (unfold upto; rewrite length_seqZ; f_equal; lia).
    pose proof (size_list_to_set_le (growRegion g)).
    assert (size (list_to_set (growRegion g) ∖ cave seeds)
            <= size (list_to_set (growRegion g) : gset VoxelCoords))%nat
      by (apply subseteq_size; set_solver).
    lia. }
  rewrite (bind_silent _ _ r1 final r2 Hgrow). cbv zeta.
  match goal with
  | |- context [shuffle ?l] => destruct (shuffle_run l r2) as (fv & r3 & Hsh & Hperm)
  end.
  rewrite (bind_silent _ _ r2 fv r3 Hsh).
  eexists _, _, r3. split; [reflexivity|]. simpl. done.
Qed.

(** C6. [generate] of the Cave generator returns, and every coordinate of
    the free-voxel list it leaves has a solid voxel directly below it in
    the generated grid. *)
Theorem freeVoxels_on_solid (g : State) grid r :
  2 <= lengthX (base g) <= 2 ^ 30 -> 2 <= widthZ (base g) <= 2 ^ 30 ->
  exists g' grid' r',
    generate g grid r = Ok (g', grid', r', []) /\
    forall c, c ∈ freeVoxels g' ->
      exists v, grid' !! (cx c, cy c - 1, cz c) = Some v /\ solid v = true.
Proof.
  intros Hlen Hwid.
  destruct (generate_run g grid r Hlen Hwid) as (g' & grid' & r' & Hrun & _ & _ & Hperm).
  exists g', grid', r'. split; [done|].
  intros c Hc. rewrite Hperm in Hc. apply getFreeVoxels_solid in Hc.
  unfold isSolid, grid_get in Hc.
  destruct (grid' !! (cx c, cy c - 1, cz c)) as [v|]; [by exists v | done].
Qed.

End CaveFacts.

(** *** The exit pad of the cave *)

Section CaveExit.
Context `{R : RngOps}.
Import Cave.

(** The pad of [exitPadWidth] cells from [v] on along z meets no solid
    voxel. *)
Definition fitsPad (grid : VoxelGrid) (exitPadWidth : Z) (v : VoxelCoords) : Prop :=
  forall z, cz v <= z < cz v + exitPadWidth -> isSolid grid (cx v, cy v, z) = false.

Lemma padFits_spec grid w v : padFits grid w v = true <-> fitsPad grid w v.
Proof.
  unfold padFits, fitsPad. rewrite forallb_forall. split.
  - intros H z Hz. apply negb_true_iff, H, list_elem_of_In, elem_of_upto. lia.
  - intros H z Hz%list_elem_of_In%elem_of_upto. apply negb_true_iff, H. lia.
Qed.

Lemma scanExit_spec grid w l : forall n, (n <= List.length l)%nat ->
  match scanExit grid w l n with
  | Some v =>
      exists i, (i < n)%nat /\ l !! i = Some v /\ fitsPad grid w v /\
        forall j v', (i < j < n)%nat -> l !! j = Some v' -> ~ fitsPad grid w v'
  | None => forall j v', (j < n)%nat -> l !! j = Some v' -> ~ fitsPad grid w v'
  end.
Proof.
  induction n as [|n IH]; intros Hn; cbn [scanExit].
  - intros j v' Hj. lia.
  - destruct (lookup_lt_is_Some_2 l n ltac:(lia)) as [v Hv]. rewrite Hv.
    destruct (padFits grid w v) eqn:Hfit.
    + exists n. split; [lia|]. split; [done|]. split; [by apply padFits_spec|].
      intros j v' Hj. lia.
    + specialize (IH ltac:(lia)).
      assert (~ fitsPad grid w v) as Hno
        by (rewrite <- padFits_spec; by rewrite Hfit).
      destruct (scanExit grid w l n) as [v0|].
      * destruct IH as (i & Hi & Hl & Hf & Hrest).
        exists i. split; [lia|]. split; [done|]. split; [done|].
        intros j v' Hj Hj'. destruct (decide (j = n)) as [->|Hne].
        -- rewrite Hv in Hj'. by injection Hj' as <-.
        -- apply (Hrest j v'); [lia | done].
      * intros j v' Hj Hj'. destruct (decide (j = n)) as [->|Hne].
        -- rewrite Hv in Hj'. by injection Hj' as <-.
        -- apply (IH j v'); [lia | done].
Qed.

(** C9. When the assertion on the width holds, [levelExit] of the Cave
    generator returns without consuming the sequencer: the pad at the last
    entry of the free-voxel list where [exitPadWidth = min(3, numAgents)]
    consecutive z-cells are non-solid, or the box from (1,1,1) to (2,2,2)
    when no entry of the list is such. *)
Theorem levelExit_last_fit (g : State) (grid : VoxelGrid) (r : Rng) :
  Z.min 3 (numAgents (base g)) <= widthZ (base g) - 2 ->
  exists box,
    levelExit g grid r = Ok (box, r, []) /\
    ((exists (i : nat) v,
        freeVoxels g !! i = Some v /\
        fitsPad grid (Z.min 3 (numAgents (base g))) v /\
        (forall (j : nat) v', (i < j)%nat -> freeVoxels g !! j = Some v' ->
           ~ fitsPad grid (Z.min 3 (numAgents (base g))) v') /\
        box = mkBox v (cx v + 1, cy v + 1, cz v + Z.min 3 (numAgents (base g))))
     \/
     ((forall v, v ∈ freeVoxels g -> ~ fitsPad grid (Z.min 3 (numAgents (base g))) v) /\
      box = mkBox (1, 1, 1) (2, 2, 2))).
Proof.
  intros Hassert. unfold levelExit.
  rewrite (bind_silent _ _ r tt r)
    by (unfold assert; by rewrite (proj2 (Z.leb_le _ _)) by lia).
  pose proof (scanExit_spec grid (Z.min 3 (numAgents (base g))) (freeVoxels g)
                (List.length (freeVoxels g)) ltac:(lia)) as Hscan.
  destruct (scanExit _ _ _ _) as [v|].
  - destruct Hscan as (i & Hi & Hl & Hf & Hrest).
    eexists. split; [reflexivity|]. left. exists i, v.
    split; [done|]. split; [done|]. split; [|done].
    intros j v' Hj Hj'. apply (Hrest j v'); [|done].
    apply lookup_lt_Some in Hj'. lia.
  - eexists. split; [reflexivity|]. right. split; [|done].
    intros v [j Hj]%list_elem_of_lookup. apply (Hscan j v); [|done].
    by apply lookup_lt_Some in Hj.
Qed.

End CaveExit.
End CaveFacts.

(** ** Vectors *)

Lemma subvector_Some {A} (v : list A) first last :
  0 <= first <= last -> last <= Z.of_nat (length v) ->
  subvector v first last = Some (take (Z.to_nat (last - first)) (drop (Z.to_nat first) v)).
Proof.
  intros H1 H2. unfold subvector.
  rewrite (proj2 (Z.leb_le 0 first)), (proj2 (Z.leb_le first last)),
    (proj2 (Z.leb_le last _)) by lia.
  reflexivity.
Qed.

Lemma subvector_None {A} (v : list A) last :
  Z.of_nat (length v) < last -> subvector v 0 last = None.
Proof.
  intros H. unfold subvector.
  rewrite (proj2 (Z.leb_gt last _)) by lia. by rewrite andb_false_r.
Qed.

Lemma bind_ret `{R : RngOps} {A B} (a : A) (k : A -> Gen B) r : bind (ret a) k r = k a r.
Proof. by apply bind_silent. Qed.

(** ** The spawn positions of the Tower generator *)

Module TowerFacts.
Section TowerFacts.
Context `{R : RngOps} {L : RngLaws R}.
Import Tower.

Lemma padAgents_Some missing : forall l first,
  l !! 0%nat = Some first -> padAgents missing l = Some (l ++ replicate missing first).
Proof.
  induction missing as [|n IH]; intros l first Hl; simpl.
  - by rewrite app_nil_r.
  - rewrite Hl. rewrite (IH (l ++ [first]) first).
    + by rewrite <- app_assoc.
    + by rewrite lookup_app_l by (apply lookup_lt_Some in Hl; done).
Qed.

(** [init] on a fresh Tower generator, for at least one agent: it succeeds,
    and the agents get the head of the shuffled candidates, padded with the
    first candidate. *)
Lemma init_run (agents : Z) (r : Rng) (grid : VoxelGrid) :
  1 <= agents ->
  exists g r' candidates first,
    init (create agents) r = Ok (g, r', []) /\
    candidates ≡ₚ cells (upto 1 (lengthX (base g) - 1)) [2] (upto 1 (widthZ (base g) - 1)) /\
    candidates !! 0%nat = Some first /\
    startingPositions g grid =
      take (Z.to_nat (Z.min agents (Z.of_nat (length candidates)))) candidates ++
      replicate (Z.to_nat (agents - Z.of_nat (length candidates))) first /\
    Z.of_nat (length (startingPositions g grid)) = agents.
Proof.
  intros Hagents.
  destruct (randRange_run 5 7 r) as (height & r1 & H1 & _).
  destruct (randRange_run 12 30 r1) as (len & r2 & H2 & Hlen). specialize (Hlen ltac:(lia)).
  destruct (randRange_run 12 25 r2) as (wid & r3 & H3 & Hwid). specialize (Hwid ltac:(lia)).
  destruct (randRange_run 3 9 r3) as (bzl & r4 & H4 & _).
  destruct (randRange_run 3 9 r4) as (bzw & r5 & H5 & _).
  destruct (randRange_run 2 8 r5) as (ml & r6 & H6 & _).
  destruct (randRange_run 2 8 r6) as (mw & r7 & H7 & _).
  set (len' := Z.max (bzl + ml + 3) len).
  set (wid' := Z.max (bzw + mw + 3) wid).
  destruct (randRange_run 1 (len' - bzl - 1) r7) as (bzx & r8 & H8 & _).
  destruct (randRange_run 1 (wid' - bzw - 1) r8) as (bzz & r9 & H9 & _).
  destruct (randRange_run 1 (len' - ml - 1) r9) as (mx & r10 & H10 & _).
  destruct (randRange_run 1 (wid' - mw - 1) r10) as (mz & r11 & H11 & _).
  destruct (shuffle_run (cells (upto 1 (len' - 1)) [2] (upto 1 (wid' - 1))) r11)
    as (cands & r12 & H12 & Hperm).
  set (size := Z.of_nat (length cands)).
  assert ((1, 2, 1) ∈ cands) as Hin.
  { rewrite Hperm. apply elem_of_cells. unfold cx, cy, cz; simpl.
    rewrite !elem_of_upto, list_elem_of_singleton. lia. }
  assert (1 <= size) as Hsize.
  { apply list_elem_of_lookup in Hin as [i Hi]. apply lookup_lt_Some in Hi.
    unfold size. lia. }
  destruct (lookup_lt_is_Some_2 cands 0%nat ltac:(unfold size in Hsize; lia))
    as [first Hcands].
  set (agentSpawn := take (Z.to_nat (Z.min agents size)) cands).
  assert (subvector cands 0 (Z.min agents size) = Some agentSpawn) as Hsub1.
  { rewrite subvector_Some by (unfold size in *; lia).
    unfold agentSpawn. by rewrite Z.sub_0_r. }
  assert (Z.of_nat (length agentSpawn) = Z.min agents size) as Hlen1.
  { unfold agentSpawn. rewrite length_take. unfold size in *. lia. }
  destruct (randRange_run 0 (Z.max 1 (Z.min (size - agents) 25)) r12)
    as (spawnObjects & r13 & H13 & Hobj). specialize (Hobj ltac:(lia)).
  assert (is_Some (subvector cands (Z.of_nat (length agentSpawn))
                     (Z.of_nat (length agentSpawn) + spawnObjects))) as [objs Hsub2].
  { rewrite subvector_Some; [done | lia | unfold size in *; lia]. }
  assert (agentSpawn !! 0%nat = Some first) as Hfirst.
  { unfold agentSpawn. by rewrite lookup_take_lt by lia. }
  exists (mkState (mkLayout agents len' height wid')
            (agentSpawn ++ replicate (Z.to_nat (agents - Z.of_nat (length agentSpawn))) first)
            (((fun c : VoxelCoords =>
                 if (mx <=? cx c) && (cx c <? mx + ml) && (mz <=? cz c) && (cz c <? mz + mw)
                 then c else (cx c, cy c - 1, cz c)) <$> objs) ++
             cells (upto mx (mx + ml)) (upto 1 2) (upto mz (mz + mw)))
            bzl bzw ml mw bzx bzz mx mz), r13, cands, first.
  split.
  { unfold init. cbn [create base numAgents Basic.create].
    rewrite (bind_silent _ _ _ _ _ H1), (bind_silent _ _ _ _ _ H2),
      (bind_silent _ _ _ _ _ H3), (bind_silent _ _ _ _ _ H4), (bind_silent _ _ _ _ _ H5),
      (bind_silent _ _ _ _ _ H6), (bind_silent _ _ _ _ _ H7).
    cbv zeta. fold len' wid'.
    rewrite (bind_silent _ _ _ _ _ H8), (bind_silent _ _ _ _ _ H9),
      (bind_silent _ _ _ _ _ H10), (bind_silent _ _ _ _ _ H11), (bind_silent _ _ _ _ _ H12).
    fold size. rewrite Hsub1. cbn [fromOption]. rewrite bind_ret.
    rewrite (bind_silent _ _ _ _ _ H13).
    rewrite Hsub2. cbn [fromOption]. rewrite bind_ret.
    rewrite (padAgents_Some _ _ first Hfirst). cbn [fromOption]. rewrite bind_ret.
    reflexivity. }
  cbn [base lengthX widthZ startingPositions agentSpawnCoords].
  split; [exact Hperm|]. split; [exact Hcands|]. split.
  - f_equal. fold size. rewrite Hlen1. f_equal. lia.
  - rewrite length_app, length_replicate. lia.
Qed.

(** C10. For at least one agent, [init] of the Tower generator succeeds and
    [startingPositions] returns exactly [numAgents] coordinates: the first
    [min(numAgents, candidates)] entries of the shuffled interior cells at
    y = 2, followed by the first candidate repeated for every agent beyond
    the candidates. *)
Theorem startingPositions_padded (agents : Z) (r : Rng) (grid : VoxelGrid) :
  1 <= agents ->
  exists g r' candidates first,
    init (create agents) r = Ok (g, r', []) /\
    candidates ≡ₚ cells (upto 1 (lengthX (base g) - 1)) [2] (upto 1 (widthZ (base g) - 1)) /\
    candidates !! 0%nat = Some first /\
    startingPositions g grid =
      take (Z.to_nat (Z.min agents (Z.of_nat (length candidates)))) candidates ++
      replicate (Z.to_nat (agents - Z.of_nat (length candidates))) first /\
    Z.of_nat (length (startingPositions g grid)) = agents.
Proof. apply init_run. Qed.

End TowerFacts.
End TowerFacts.

(** ** The concrete sequencer meets the contract *)

Lemma rotate_perm (l : list VoxelCoords) n : Lcg.rotate l n ≡ₚ l.
Proof.
  unfold Lcg.rotate. rewrite Permutation_app_comm. by rewrite take_drop.
Qed.

#[global] Instance lcg_laws : RngLaws Lcg.ops.
Proof.
  split.
  - intros lo hi r Hle. simpl.
    pose proof (Z.mod_pos_bound (Lcg.step r) (hi - lo + 1) ltac:(lia)). lia.
  - intros l r. simpl. apply rotate_perm.
Defined.

(** ** The starting positions of the Basic generator *)

Module StartFacts.
Section StartFacts.
Context `{R : RngOps} {L : RngLaws R}.

(** The interior cells at y = 1, where agents may start. *)
Definition interior (g : Layout) : list VoxelCoords :=
  cells (upto 1 (lengthX g - 1)) [1] (upto 1 (widthZ g - 1)).

(** Up to ten attempts for one agent: the list is left as it is, or it
    gets one new position of the interior. *)
Lemma placeAgent_run (g : Layout) :
  3 <= lengthX g -> 3 <= widthZ g ->
  forall attempts ps r,
  exists ps' r',
    Basic.placeAgent attempts g ps r = Ok (ps', r', []) /\
    (ps' = ps \/ exists c, (c ∉ ps) /\ c ∈ interior g /\ ps' = ps ++ [c]).
Proof.
  intros Hlen Hwid. induction attempts as [|n IH]; intros ps r; cbn [Basic.placeAgent].
  - exists ps, r. split; [done | by left].
  - draw x Hx. draw z Hz. case_bool_decide as Hin.
    + apply IH.
    + exists (ps ++ [(x, 1, z)]), r1. split; [done|]. right.
      exists (x, 1, z). split; [done|]. split; [|done].
      apply elem_of_cells. unfold cx, cy, cz; simpl.
      rewrite !elem_of_upto, list_elem_of_singleton. lia.
Qed.

Lemma placeAgents_run (g : Layout) :
  3 <= lengthX g -> 3 <= widthZ g ->
  forall (todo : list Z) ps r, NoDup ps -> ps ⊆ interior g ->
  exists ps' r',
    foldGen (fun agentPositions _ => Basic.placeAgent 10 g agentPositions) todo ps r
      = Ok (ps', r', []) /\
    NoDup ps' /\ ps' ⊆ interior g /\
    (length ps' <= length ps + length todo)%nat.
Proof.
  intros Hlen Hwid. induction todo as [|i todo IH]; intros ps r Hnd Hsub; cbn [foldGen].
  - exists ps, r. split; [done|]. split; [done|]. split; [done|]. lia.
  - destruct (placeAgent_run g Hlen Hwid 10 ps r) as (ps1 & r1 & Hrun & Hps1).
    rewrite (bind_silent _ _ r ps1 r1 Hrun).
    destruct Hps1 as [->|(c & Hc & Hci & ->)].
    + destruct (IH ps r1 Hnd Hsub) as (ps' & r' & Hfold & Hnd' & Hsub' & Hlen').
      exists ps', r'. split; [done|]. split; [done|]. split; [done|]. simpl. lia.
    + destruct (IH (ps ++ [c]) r1) as (ps' & r' & Hfold & Hnd' & Hsub' & Hlen').
      { apply NoDup_app. split; [done|]. split; [|apply NoDup_singleton].
        intros c' Hc' ->%list_elem_of_singleton. done. }
      { intros c' [?| ->%list_elem_of_singleton]%elem_of_app; [by apply Hsub | done]. }
      exists ps', r'. split; [done|]. split; [done|]. split; [done|].
      rewrite length_app in Hlen'. simpl in *. lia.
Qed.

Lemma length_bind_const {A B} (f : A -> list B) (n : nat) (l : list A) :
  (forall a, length (f a) = n) -> length (l ≫= f) = (length l * n)%nat.
Proof.
  intros Hf. induction l as [|a l IH]; [done|].
  change ((a :: l) ≫= f) with (f a ++ (l ≫= f)).
  rewrite length_app, Hf, IH. simpl. lia.
Qed.

Lemma length_cells xs ys zs :
  length (cells xs ys zs) = (length xs * (length ys * length zs))%nat.
Proof.
  unfold cells. apply length_bind_const. intros x.
  apply length_bind_const. intros y.
  rewrite (length_bind_const _ 1%nat); [lia | done].
Qed.

Lemma length_interior (g : Layout) :
  3 <= lengthX g -> 3 <= widthZ g ->
  Z.of_nat (length (interior g)) = (lengthX g - 2) * (widthZ g - 2).
Proof.
  intros Hlen Hwid. unfold interior, upto. rewrite length_cells, !length_seqZ. simpl. nia.
Qed.

(** The starting positions of the Basic generator: the call never fails
    and returns at most [numAgents] pairwise distinct cells of the
    interior. *)
Lemma startingPositions_run (g : Layout) grid r :
  3 <= lengthX g -> 3 <= widthZ g ->
  exists ps r',
    Basic.startingPositions g grid r = Ok (ps, r', []) /\
    NoDup ps /\ ps ⊆ interior g /\
    Z.of_nat (length ps) <= Z.max 0 (numAgents g) /\
    Z.of_nat (length ps) <= (lengthX g - 2) * (widthZ g - 2).
Proof.
  intros Hlen Hwid. unfold Basic.startingPositions.
  destruct (placeAgents_run g Hlen Hwid (upto 0 (numAgents g)) [] r)
    as (ps & r' & Hrun & Hnd & Hsub & Hcount).
  { constructor. } { intros c Hc. by apply elem_of_nil in Hc. }
  exists ps, r'. split; [done|]. split; [done|]. split; [done|]. split.
  - unfold upto in Hcount. rewrite length_seqZ in Hcount. simpl in Hcount. lia.
  - rewrite <- length_interior by done. apply inj_le, submseteq_length.
    by apply NoDup_submseteq.
Qed.


End StartFacts.
End StartFacts.

(** ** The reset pipeline *)

Module EnvFacts.
Section EnvFacts.
Context `{R : RngOps} {G : Type} (ops : EnvModel.LayoutGeneratorOps G).
Import EnvModel.


End EnvFacts.
End EnvFacts.

(** ** The theorems at work on the examples *)

Module Runs.
Import Examples.

Lemma slab_solidInner : ExtractFacts.solidInner slab.
Proof.
  intros c. unfold slab. rewrite isSolid_fillSolid.
  case_bool_decide as Hc.
  - intros _.
    apply elem_of_cons in Hc as [->|Hc]; [|apply list_elem_of_singleton in Hc as ->];
      unfold inner_coords, inner_int, int_min, int_max, cx, cy, cz; simpl; lia.
  - simpl. unfold isSolid, grid_get, grid_set.
    destruct (decide (c = (1, 1, 0))) as [->|Hne].
    + by rewrite lookup_insert_eq.
    + by rewrite lookup_insert_ne, lookup_empty.
Qed.

Lemma extractPrimitives_partition_witness :
  exists boxes, Extract.extractPrimitives_in (map_to_list slab) slab = Some boxes /\
    (forall c, isSolid slab c = true <-> exists b, b ∈ boxes /\ covers b c) /\
    (forall (i j : nat) b1 b2 c,
        boxes !! i = Some b1 -> boxes !! j = Some b2 ->
        covers b1 c -> covers b2 c -> i = j).
Proof.
  exact (ExtractFacts.extractPrimitives_partition slab (map_to_list slab)
           (reflexivity _) slab_solidInner).
Defined.

Lemma generate_shell_witness :
  exists grid, Basic.generate room ∅ = Some grid /\
    (forall x z, 0 <= x < 8 -> 0 <= z < 7 -> isSolid grid (x, 0, z) = true) /\
    (forall x y z, 0 <= x < 8 -> 0 <= y < 3 -> 0 <= z < 7 ->
       x = 0 \/ x = 8 - 1 \/ z = 0 \/ z = 7 - 1 -> isSolid grid (x, y, z) = true) /\
    (forall x y z, 0 < x < 8 - 1 -> 0 < z < 7 - 1 -> 0 < y ->
       grid !! (x, y, z) = None /\ isSolid grid (x, y, z) = false).
Proof.
  exact (BasicFacts.generate_shell room ltac:(simpl; lia) ltac:(simpl; lia)).
Defined.

Lemma init_walls_increasing_witness :
  exists g numWalls r' log,
    Walls.initWalls (Walls.create 2) (seed 42) = Ok (g, numWalls, r', log) /\
    0 <= numWalls <= Walls.maxNumWalls /\
    StronglySorted Z.lt (WallsFacts.wallXs g) /\
    Forall (fun x => Walls.firstWallX g <= x < lengthX (Walls.base g) - 1)
           (WallsFacts.wallXs g) /\
    ((log = [] /\ Z.of_nat (List.length (Walls.walls g)) = numWalls) \/
     (exists i, log = [CouldNotGenerateWall i] /\
                Z.of_nat (List.length (Walls.walls g)) < numWalls)).
Proof. exact (WallsFacts.init_walls_increasing (L := lcg_laws) 2 (seed 42)). Defined.

Lemma freeVoxels_on_solid_witness :
  exists g' grid' r',
    Cave.generate cavern ∅ (seed 42) = Ok (g', grid', r', []) /\
    forall c, c ∈ Cave.freeVoxels g' ->
      exists v, grid' !! (cx c, cy c - 1, cz c) = Some v /\ solid v = true.
Proof.
  exact (CaveFacts.freeVoxels_on_solid (L := lcg_laws) cavern ∅ (seed 42)
           ltac:(simpl; lia) ltac:(simpl; lia)).
Defined.

Lemma cave_growth_bounds_witness :
  exists seeds r1 final r2,
    foldGen (Cave.plantSeed cavern) (upto 0 (Cave.numSeeds cavern))
            (Cave.mkGrowth [] ∅ F32.c0_8) (seed 42) = Ok (seeds, r1, []) /\
    Cave.grow (Cave.growFuel cavern) cavern seeds r1 = Ok (final, r2, []) /\
    Cave.cave seeds ⊆ Cave.cave final /\
    (forall c, c ∈ Cave.cave final ->
       1 <= cy c <= 2 /\ 2 <= cx c < 8 - 2 /\ 1 <= cz c <= 7 - 1) /\
    Cave.growthProb final =
      Nat.iter (size (Cave.cave final) - size (Cave.cave seeds))
               (fun p => F32.mul p F32.c0_995) F32.c0_8.
Proof.
  exact (CaveFacts.cave_growth_bounds (L := lcg_laws) cavern (seed 42)
           ltac:(simpl; lia) ltac:(simpl; lia) ltac:(simpl; lia)).
Defined.

Lemma levelExit_last_fit_witness :
  exists box,
    Cave.levelExit cavernFree ∅ (seed 42) = Ok (box, seed 42, []) /\
    ((exists (i : nat) v,
        Cave.freeVoxels cavernFree !! i = Some v /\
        CaveFacts.fitsPad ∅ (Z.min 3 2) v /\
        (forall (j : nat) v', (i < j)%nat -> Cave.freeVoxels cavernFree !! j = Some v' ->
           ~ CaveFacts.fitsPad ∅ (Z.min 3 2) v') /\
        box = mkBox v (cx v + 1, cy v + 1, cz v + Z.min 3 2))
     \/
     ((forall v, v ∈ Cave.freeVoxels cavernFree -> ~ CaveFacts.fitsPad ∅ (Z.min 3 2) v) /\
      box = mkBox (1, 1, 1) (2, 2, 2))).
Proof.
  exact (CaveFacts.levelExit_last_fit cavernFree ∅ (seed 42) ltac:(simpl; lia)).
Defined.

Lemma startingPositions_padded_witness :
  exists g r' candidates first,
    Tower.init (Tower.create 3) (seed 42) = Ok (g, r', []) /\
    candidates ≡ₚ cells (upto 1 (lengthX (Tower.base g) - 1)) [2]
                        (upto 1 (widthZ (Tower.base g) - 1)) /\
    candidates !! 0%nat = Some first /\
    Tower.startingPositions g ∅ =
      take (Z.to_nat (Z.min 3 (Z.of_nat (length candidates)))) candidates ++
      replicate (Z.to_nat (3 - Z.of_nat (length candidates))) first /\
    Z.of_nat (length (Tower.startingPositions g ∅)) = 3.
Proof.
  exact (TowerFacts.startingPositions_padded (L := lcg_laws) 3 (seed 42) ∅ ltac:(lia)).
Defined.



Lemma roomOps_init_replaces : EnvModel.init_replaces roomOps.
Proof. intros g g'. reflexivity. Qed.


End Runs.

(** * Further properties *)

(** ** Primitive extraction: shape and number of the boxes *)

Module ExtractMore.
Import Extract ExtractFacts.

(** One entry of the hash map: as [visitEntry_total], and the boxes stay
    non-empty cuboids. *)
Lemma visitEntry_wf grid acc coord voxel :
  solidInner grid -> extracted grid acc -> grid !! coord = Some voxel ->
  Forall wfBox acc.2 ->
  exists acc', visitEntry (S (size grid)) grid acc (coord, voxel) = Some acc' /\
    extracted grid acc' /\ Forall wfBox acc'.2 /\
    (solid voxel = true -> coord ∈ acc'.1).
Proof.
  intros Hin Hx Hget Hwf.
  destruct (visitEntry_total grid acc coord voxel Hin Hx Hget)
    as (acc' & Hrun & Hx' & _ & Hseen).
  exists acc'. split; [done|]. split; [done|]. split; [|done].
  destruct acc as [visited boxes]. unfold visitEntry in Hrun.
  destruct (negb (solid voxel) || bool_decide (coord ∈ visited)) eqn:Hskip.
  - by injection Hrun as <-.
  - apply orb_false_iff in Hskip as [Hs Hfresh].
    apply negb_false_iff in Hs. apply bool_decide_eq_false in Hfresh.
    assert (expanding grid visited ({[coord]} ∪ visited, mkBox coord coord)) as Hex.
    { split; simpl.
      - clear. coords. lia.
      - intros c. rewrite covers_point. set_solver.
      - intros c Hc%covers_point. by subst c.
      - intros c [Hc%elem_of_singleton|Hc]%elem_of_union.
        + subst c. unfold isSolid, grid_get. by rewrite Hget.
        + by apply (xt_solid _ _ Hx). }
    destruct (expandAll_total _ _ _ Hin Hex) as (st' & Hall & Hex' & _).
    rewrite Hall in Hrun. cbn [mbind option_bind] in Hrun.
    destruct st' as [visited' bbox]. injection Hrun as <-. simpl in *.
    apply Forall_app. split; [done|]. constructor; [|constructor].
    apply (ex_wf _ _ _ Hex').
Qed.

Lemma extract_fold_wf grid : solidInner grid -> forall order acc,
  extracted grid acc -> (forall c v, (c, v) ∈ order -> grid !! c = Some v) ->
  Forall wfBox acc.2 ->
  exists acc',
    visitAll grid order acc = Some acc' /\
    extracted grid acc' /\ Forall wfBox acc'.2.
Proof.
  intros Hin. unfold visitAll.
  induction order as [|[coord voxel] order IH]; intros acc Hx Hord Hwf; cbn [foldl].
  - by exists acc.
  - destruct (visitEntry_wf grid acc coord voxel Hin Hx) as (acc1 & Hrun & Hx1 & Hwf1 & _);
      [apply Hord; by left | done |].
    cbn [mbind option_bind]. rewrite Hrun.
    apply IH; [done | | done]. intros c v Hc. apply Hord. by right.
Qed.

(** The number of solid voxels of a grid. *)
Definition solidCount (grid : VoxelGrid) : nat :=
  size (filter (fun kv : VoxelCoords * VoxelState => solid kv.2 = true) grid).

Lemma isSolid_filter grid c :
  isSolid grid c = true <->
  c ∈ dom (filter (fun kv : VoxelCoords * VoxelState => solid kv.2 = true) grid).
Proof.
  rewrite elem_of_dom. unfold isSolid, grid_get, is_Some. split.
  - destruct (grid !! c) as [v|] eqn:Hc; [|done]. intros Hs.
    exists v. by apply map_lookup_filter_Some.
  - intros [v [Hc Hs]%map_lookup_filter_Some]. by rewrite Hc.
Qed.

(** What [extractPrimitives] returns, in full: a partition of the solid
    voxels into non-empty cuboids, at most one per solid voxel. *)
Lemma extract_summary (grid : VoxelGrid) (order : list (VoxelCoords * VoxelState)) :
  order ≡ₚ map_to_list grid -> solidInner grid ->
  exists boxes, extractPrimitives_in order grid = Some boxes /\
    (forall c, isSolid grid c = true <-> exists b, b ∈ boxes /\ covers b c) /\
    (forall (i j : nat) b1 b2 c,
        boxes !! i = Some b1 -> boxes !! j = Some b2 ->
        covers b1 c -> covers b2 c -> i = j) /\
    Forall wfBox boxes /\
    (length boxes <= solidCount grid)%nat /\
    (boxes = [] <-> forall c, isSolid grid c = false).
Proof.
  intros Hperm Hin.
  assert (forall c v, (c, v) ∈ order <-> grid !! c = Some v) as Hord.
  { intros c v. rewrite Hperm. apply elem_of_map_to_list. }
  destruct (extract_fold grid Hin order (∅, [])) as (acc' & Hfold & Hx & _ & Hall).
  { split; simpl.
    - intros c. split; [set_solver|]. intros (b & Hb & _). by apply elem_of_nil in Hb.
    - set_solver.
    - intros i j b1 b2 c Hi. by rewrite lookup_nil in Hi. }
  { intros c v. apply Hord. }
  destruct (extract_fold_wf grid Hin order (∅, [])) as (acc2 & Hfold2 & _ & Hwf).
  { split; simpl.
    - intros c. split; [set_solver|]. intros (b & Hb & _). by apply elem_of_nil in Hb.
    - set_solver.
    - intros i j b1 b2 c Hi. by rewrite lookup_nil in Hi. }
  { intros c v. apply Hord. }
  { constructor. }
  rewrite Hfold in Hfold2. injection Hfold2 as <-.
  unfold extractPrimitives_in. rewrite Hfold. destruct acc' as [visited boxes]. simpl in *.
  exists boxes. split; [done|].
  assert (forall b, b ∈ boxes -> covers b (bmin b)) as Hcorner.
  { intros b Hb. rewrite Forall_forall in Hwf. specialize (Hwf b Hb).
    clear -Hwf. coords. lia. }
  assert (forall c, isSolid grid c = true <-> c ∈ visited) as Hsolid.
  { intros c. split; [|apply (xt_solid _ _ Hx)].
    unfold isSolid, grid_get. destruct (grid !! c) as [v|] eqn:Hc; [|done].
    intros Hs. apply (Hall c v); [by apply Hord | done]. }
  split; [intros c; by rewrite Hsolid, (xt_cover _ _ Hx c)|].
  split; [apply (xt_disjoint _ _ Hx)|]. split; [done|].
  split.
  - unfold solidCount. rewrite <- (size_dom (D := gset VoxelCoords)).
    rewrite <- (length_fmap bmin).
    rewrite <- (size_list_to_set (C := gset VoxelCoords)).
    + apply subseteq_size. intros c [b [-> Hb]]%elem_of_list_to_set%list_elem_of_fmap.
      apply isSolid_filter, Hsolid, (xt_cover _ _ Hx). exists b. split; [done|].
      by apply Hcorner.
    + apply NoDup_alt. intros i j c Hi Hj.
      rewrite list_lookup_fmap in Hi, Hj.
      destruct (boxes !! i) as [b1|] eqn:Hb1; [|done].
      destruct (boxes !! j) as [b2|] eqn:Hb2; [|done].
      injection Hi as <-. injection Hj as Hc.
      apply (xt_disjoint _ _ Hx i j b1 b2 (bmin b1) Hb1 Hb2).
      * by eapply Hcorner, list_elem_of_lookup_2.
      * rewrite <- Hc. by eapply Hcorner, list_elem_of_lookup_2.
  - split.
    + intros -> c. destruct (isSolid grid c) eqn:Hs; [|done].
      apply Hsolid, (xt_cover _ _ Hx) in Hs as (b & Hb & _). by apply elem_of_nil in Hb.
    + intros Hnone. destruct boxes as [|b boxes]; [done|].
      assert (isSolid grid (bmin b) = true) as Hs.
      { apply Hsolid, (xt_cover _ _ Hx). exists b. split; [by left|].
        apply Hcorner. by left. }
      by rewrite Hnone in Hs.
Qed.

(** Every emitted box is a non-empty cuboid (its corners are ordered), and
    there are no more boxes than solid voxels; no box at all is emitted
    exactly when the grid has no solid voxel. *)
Theorem extractPrimitives_boxes (grid : VoxelGrid)
    (order : list (VoxelCoords * VoxelState)) :
  order ≡ₚ map_to_list grid -> solidInner grid ->
  exists boxes, extractPrimitives_in order grid = Some boxes /\
    Forall wfBox boxes /\
    (length boxes <= solidCount grid)%nat /\
    (boxes = [] <-> forall c, isSolid grid c = false).
Proof.
  intros Hperm Hin.
  destruct (extract_summary grid order Hperm Hin)
    as (boxes & Hrun & _ & _ & Hwf & Hcount & Hempty).
  by exists boxes.
Qed.

End ExtractMore.

(** ** The Basic generator: what [generate] writes, and when it returns *)

Module BasicMore.
Import BasicFacts.

(** The cells of the room shell: the floor plane and the four perimeter
    slabs. *)
Definition inShell (g : Layout) (c : VoxelCoords) : Prop :=
  0 <= cx c < lengthX g /\ 0 <= cz c < widthZ g /\
  (cy c = 0 \/
   (0 <= cy c < heightY g /\
    (cx c = 0 \/ cx c = lengthX g - 1 \/ cz c = 0 \/ cz c = widthZ g - 1))).

Lemma classic_shell (g : Layout) c : inShell g c \/ ~ inShell g c.
Proof. unfold inShell. lia. Qed.

Lemma generate_cells (g : Layout) grid0 :
  2 <= lengthX g <= 2 ^ 30 -> 2 <= widthZ g <= 2 ^ 30 ->
  exists grid, Basic.generate g grid0 = Some grid /\
    forall c,
      (inShell g c -> grid !! c = Some (VoxelState_of true)) /\
      (~ inShell g c -> grid !! c = grid0 !! c).
Proof.
  intros Hl Hw. eexists. split; [by apply generate_eq|].
  intros c. rewrite !fillSolid_lookup.
  assert (c ∈ shellCells g \/ c ∈ cells [0; lengthX g - 1] (upto 0 (heightY g)) (upto 0 (widthZ g))
          \/ c ∈ cells (upto 0 (lengthX g)) [0] (upto 0 (widthZ g)) <-> inShell g c) as Hshell.
  { rewrite elem_of_shellCells, !elem_of_cells, !elem_of_upto, list_elem_of_singleton.
    rewrite elem_of_cons, list_elem_of_singleton. unfold inShell. lia. }
  repeat case_bool_decide; split; intros Hc; try done; exfalso; tauto.
Qed.

(** [generate] writes the shell and nothing else: every shell cell ends up
    solid with no object attached, and every other coordinate keeps what
    the grid held before (stored or absent). *)
Theorem generate_writes_shell (g : Layout) (grid0 : VoxelGrid) :
  2 <= lengthX g <= 2 ^ 30 -> 2 <= widthZ g <= 2 ^ 30 ->
  exists grid, Basic.generate g grid0 = Some grid /\
    forall c,
      (inShell g c -> grid !! c = Some (VoxelState_of true)) /\
      (~ inShell g c -> grid !! c = grid0 !! c).
Proof. apply generate_cells. Qed.

Lemma strideValues_stuck fuel limit :
  0 < limit -> strideValues fuel 0 limit 0 = None.
Proof.
  intros Hlimit. induction fuel as [|fuel IH]; [done|].
  cbn [strideValues]. rewrite (proj2 (Z.ltb_lt 0 limit)) by done.
  change (wrap (0 + 0)) with 0. by rewrite IH.
Qed.

(** The degenerate footprints. A room of length 1 makes the loop
    [x += length - 1] stand still, whatever the fuel, and [generate] does
    not return; a room of length 0 or less leaves the grid as it is. *)
Theorem generate_degenerate (g : Layout) (grid : VoxelGrid) :
  (lengthX g = 1 ->
     (forall fuel, strideValues fuel 0 (lengthX g) (lengthX g - 1) = None) /\
     Basic.generate g grid = None) /\
  (lengthX g <= 0 -> Basic.generate g grid = Some grid).
Proof.
  split.
  - intros Hone. rewrite Hone. split; [intros fuel; by apply strideValues_stuck|].
    unfold Basic.generate. rewrite Hone. by rewrite strideValues_stuck.
  - intros Hneg. unfold Basic.generate, Basic.strideFuel.
    assert (upto 0 (lengthX g) = []) as Hnone.
    { unfold upto, seqZ. by replace (Z.to_nat (lengthX g - 0)) with 0%nat by lia. }
    rewrite Hnone. cbn [strideValues].
    rewrite (proj2 (Z.ltb_ge 0 (lengthX g))) by lia.
    reflexivity.
Qed.

Section Pipeline.
Context `{R : RngOps} {L : RngLaws R}.

(** The Basic archetype end to end: for every number of agents and every
    state of the sequencer, [init] succeeds, [generate] returns on the
    empty grid, and [extractPrimitives] turns the room into boxes that
    partition its solid voxels, which are the cells of the shell. *)
Theorem room_primitives (agents : Z) (r : Rng) :
  exists g r' grid boxes,
    Basic.init (Basic.create agents) r = Ok (g, r', []) /\
    Basic.generate g ∅ = Some grid /\
    Extract.extractPrimitives grid = Some boxes /\
    (forall c, inShell g c <-> exists b, b ∈ boxes /\ covers b c) /\
    (forall (i j : nat) b1 b2 c,
        boxes !! i = Some b1 -> boxes !! j = Some b2 ->
        covers b1 c -> covers b2 c -> i = j).
Proof.
  destruct (InitFacts.Basic_init_run (Basic.create agents) r)
    as (g & r' & Hinit & _ & Hlen & Hwid & Hhei).
  destruct (generate_cells g ∅ ltac:(lia) ltac:(lia)) as (grid & Hgen & Hcells).
  assert (forall c, isSolid grid c = true <-> inShell g c) as Hsolid.
  { intros c. unfold isSolid, grid_get. destruct (Hcells c) as [Hin Hout]. split.
    - intros Hs. destruct (classic_shell g c) as [?|Hno]; [done|].
      rewrite (Hout Hno), lookup_empty in Hs. done.
    - intros Hc. by rewrite (Hin Hc). }
  destruct (ExtractMore.extract_summary grid (map_to_list grid) (reflexivity _))
    as (boxes & Hrun & Hcover & Hdisj & _).
  { intros c Hc%Hsolid. destruct Hc as (Hx & Hz & Hy).
    unfold inner_coords, inner_int, int_min, int_max. lia. }
  exists g, r', grid, boxes. split; [done|]. split; [done|]. split; [done|].
  split; [|done]. intros c. by rewrite <- Hsolid, Hcover.
Qed.

End Pipeline.

End BasicMore.

(** ** The Walls generator: wall count, geometry, exit and spawns *)

Module WallsMore.
Section WallsMore.
Context `{R : RngOps} {L : RngLaws R}.
Import Walls.

Lemma bind_assoc {A B C} (m : Gen A) (k1 : A -> Gen B) (k2 : B -> Gen C) r :
  bind (bind m k1) k2 r = bind m (fun a => bind (k1 a) k2) r.
Proof.
  unfold bind. destruct (m r) as [[[a r1] l1]|e]; [|done].
  destruct (k1 a r1) as [[[b r2] l2]|e]; [|done].
  destruct (k2 b r2) as [[[c r3] l3]|e]; [|done].
  by rewrite app_assoc.
Qed.

(** The invariant of the wall loop: [prevWallX] is the greatest wall
    position, [maxWallHeight] bounds the heights, and the walls stand
    between the first wall [fx] and [prevWallX]. *)
Definition wellBuilt (fx prevWallX : Z) (st : State) : Prop :=
  maxWallX st = prevWallX /\ fx <= prevWallX /\
  1 <= maxWallHeight st <= tallestWall /\
  Forall (fun w : Z * Z => 1 <= w.2 <= maxWallHeight st /\ fx <= w.1 <= prevWallX) (walls st).

(** Started with the room that [init] leaves, the loop places a wall in
    every round: the test for missing space never succeeds. *)
Lemma placeWalls_full numWalls len fx (k : nat) : forall i prevWallX st r,
  i + Z.of_nat k = numWalls -> 1 <= i ->
  prevWallX <= len - 2 * numWalls + 2 * i - 3 ->
  prevWallX <= len - 4 ->
  wellBuilt fx prevWallX st ->
  exists st' r',
    placeWalls (seqZ i (Z.of_nat k)) numWalls len prevWallX st r = Ok (st', r', []) /\
    length (walls st') = (length (walls st) + k)%nat /\
    base st' = base st /\ firstWallX st' = firstWallX st /\
    agentSpawnCoords st' = agentSpawnCoords st /\
    objectSpawnCoords st' = objectSpawnCoords st /\
    (exists new, walls st' = walls st ++ new) /\
    maxWallX st' <= len - 4 /\
    wellBuilt fx (maxWallX st') st'.
Proof.
  induction k as [|k IH]; intros i prevWallX st r Hik Hi Hprev Hroom Hst.
  - exists st, r. simpl. destruct Hst as (Hmx & Hst).
    split; [done|]. split; [lia|]. do 4 (split; [done|]).
    split; [by exists []; rewrite app_nil_r|]. split; [lia|].
    rewrite Hmx. by split.
  - rewrite seqZ_cons by lia. cbn [placeWalls].
    draw wallHeight Hh. unfold tallestWall in *. specialize (Hh ltac:(lia)).
    assert (prevWallX + 1 < len - (3 + (numWalls - i - 1) * 2)) as Hspace by lia.
    rewrite (proj2 (Z.leb_gt _ _) Hspace).
    draw wallX Hx. specialize (Hx Hspace).
    destruct Hst as (Hmx & Hfx & Hmh & Hwalls).
    destruct (IH (Z.succ i) wallX
                (mkState (base st) (Z.max (maxWallHeight st) wallHeight)
                   (Z.max (maxWallX st) wallX) (firstWallX st)
                   (walls st ++ [(wallX, wallHeight)])
                   (agentSpawnCoords st) (objectSpawnCoords st)) r1)
      as (st' & r' & Hrun & Hlen & Hbase & Hfirst & Hag & Hob & (new & Hnew) & Hmax & Hst');
      [lia | lia | lia | lia | |].
    { unfold wellBuilt, tallestWall in *. simpl. split; [lia|]. split; [lia|]. split; [lia|].
      apply Forall_app. split.
      - eapply Forall_impl; [exact Hwalls|]. simpl. intros w Hw. lia.
      - constructor; [simpl; lia | constructor]. }
    replace (Z.pred (Z.of_nat (S k))) with (Z.of_nat k) by lia.
    exists st', r'. simpl in *. split; [exact Hrun|].
    split; [rewrite Hlen, length_app; simpl; lia|]. do 4 (split; [done|]).
    split; [|done].
    exists ((wallX, wallHeight) :: new). by rewrite Hnew, <- app_assoc.
Qed.

(** What [init] leaves after the choice of the height, on a fresh
    generator. *)
Lemma initWalls_full (agents : Z) (r : Rng) :
  exists g numWalls r',
    initWalls (create agents) r = Ok (g, numWalls, r', []) /\
    0 <= numWalls <= maxNumWalls /\
    Z.of_nat (length (walls g)) = numWalls /\
    numAgents (base g) = agents /\
    2 * numWalls + 7 <= lengthX (base g) < 35 /\
    7 <= widthZ (base g) < 25 /\
    3 + maxWallHeight g <= heightY (base g) < 5 + maxWallHeight g /\
    agentSpawnCoords g = [] /\ objectSpawnCoords g = [] /\
    (numWalls = 0 ->
       walls g = [] /\ firstWallX g = 3 /\ maxWallX g = 0 /\ maxWallHeight g = 0) /\
    (0 < numWalls ->
       4 <= firstWallX g /\ maxWallX g <= lengthX (base g) - 4 /\
       (exists h rest, walls g = (firstWallX g, h) :: rest) /\
       wellBuilt (firstWallX g) (maxWallX g) g).
Proof.
  unfold initWalls.
  destruct (InitFacts.Basic_init_run (base (create agents)) r)
    as (b & r1 & Hinit & Hagents & _ & Hwid & _).
  rewrite (bind_silent _ _ r b r1 Hinit).
  draw numWalls Hn. unfold maxNumWalls in *. specialize (Hn ltac:(lia)).
  draw len Hlen. specialize (Hlen ltac:(lia)).
  cbv zeta. destruct (numWalls <=? 0) eqn:Hzero.
  - apply Z.leb_le in Hzero. assert (numWalls = 0) as -> by lia.
    rewrite bind_ret. draw height Hh. specialize (Hh ltac:(lia)).
    eexists _, 0, _. split; [reflexivity|]. simpl.
    split_and!; try done; try lia.
  - apply Z.leb_gt in Hzero. rewrite !bind_assoc.
    draw fx Hfx. specialize (Hfx ltac:(lia)). rewrite !bind_assoc.
    draw fh Hfh. unfold tallestWall in Hfh. specialize (Hfh ltac:(lia)).
    unfold upto. replace (numWalls - 1) with (Z.of_nat (Z.to_nat (numWalls - 1))) by lia.
    lazymatch goal with
    | |- context [bind (placeWalls _ _ _ _ ?st0) _ ?rr] =>
        destruct (placeWalls_full numWalls len fx (Z.to_nat (numWalls - 1)) 1 fx st0 rr)
          as (st' & rw & Hrun & Hcount & Hbase & Hfirst & Hag & Hob & (new & Hnew) & Hmax & Hst');
          [lia | lia | lia | lia | |];
          [unfold wellBuilt, tallestWall; simpl; split_and!; try lia;
           constructor; [simpl; lia | constructor] |];
          rewrite (bind_silent _ _ rr st' rw Hrun)
    end.
    draw height Hh. specialize (Hh ltac:(lia)).
    eexists _, numWalls, _. split; [reflexivity|].
    simpl in *. rewrite Hfirst. destruct Hst' as (Hmx & Hfx' & Hmh & Hwalls).
    split_and!; try done; try lia.
    intros _. split_and!; try done; try lia.
    exists fh, new. by rewrite Hnew.
Qed.

(** [init] on a fresh generator always places as many walls as it drew and
    logs no warning: the branch for missing space is never taken. With no
    wall the defaults stay ([firstWallX = 3], [maxWallX = 0]). *)
Theorem initWalls_never_short (agents : Z) (r : Rng) :
  exists g numWalls r',
    initWalls (create agents) r = Ok (g, numWalls, r', []) /\
    0 <= numWalls <= maxNumWalls /\
    Z.of_nat (length (walls g)) = numWalls /\
    (numWalls = 0 ->
       walls g = [] /\ firstWallX g = 3 /\ maxWallX g = 0 /\ maxWallHeight g = 0).
Proof.
  destruct (initWalls_full agents r)
    as (g & n & r' & Hrun & Hn & Hcount & _ & _ & _ & _ & _ & _ & Hzero & _).
  by exists g, n, r'.
Qed.

(** The geometry of the walls after [init]: every wall is 1 to 4 high and
    stands from [firstWallX] (at least 4) to [maxWallX] (at most
    [length - 4]), the first wall at [firstWallX]; [maxWallHeight] bounds
    the heights, and the room is at least 3 higher than the tallest
    wall. *)
Theorem initWalls_geometry (agents : Z) (r : Rng) :
  exists g numWalls r',
    initWalls (create agents) r = Ok (g, numWalls, r', []) /\
    2 * numWalls + 7 <= lengthX (base g) < 35 /\
    3 + maxWallHeight g <= heightY (base g) < 5 + maxWallHeight g /\
    0 <= maxWallHeight g <= tallestWall /\
    Forall (fun w : Z * Z =>
              4 <= firstWallX g <= w.1 /\ w.1 <= maxWallX g <= lengthX (base g) - 4 /\
              1 <= w.2 <= maxWallHeight g /\ w.2 + 3 <= heightY (base g)) (walls g) /\
    (0 < numWalls -> exists h rest, walls g = (firstWallX g, h) :: rest).
Proof.
  destruct (initWalls_full agents r)
    as (g & n & r' & Hrun & Hn & Hcount & _ & Hlen & _ & Hhei & _ & _ & Hzero & Hpos).
  exists g, n, r'. split; [done|]. split; [done|]. split; [done|].
  destruct (decide (n = 0)) as [->|Hne].
  - destruct (Hzero eq_refl) as (-> & _ & _ & ->). unfold tallestWall.
    split; [lia|]. split; [constructor | lia].
  - destruct (Hpos ltac:(lia)) as (Hfx & Hmx & Hfirst & (_ & _ & Hmh & Hwalls)).
    split; [lia|]. split; [|done].
    eapply Forall_impl; [exact Hwalls|]. simpl. intros w Hw. lia.
Qed.

Lemma NoDup_cells xs ys zs : NoDup xs -> NoDup ys -> NoDup zs -> NoDup (cells xs ys zs).
Proof.
  intros Hx Hy Hz. unfold cells. apply NoDup_bind; [| |done].
  - intros x1 x2 c _ _ H1 H2.
    apply list_elem_of_bind in H1 as (y1 & H1 & _).
    apply list_elem_of_bind in H1 as (z1 & ->%list_elem_of_singleton & _).
    apply list_elem_of_bind in H2 as (y2 & H2 & _).
    apply list_elem_of_bind in H2 as (z2 & H2%list_elem_of_singleton & _).
    congruence.
  - intros x _. apply NoDup_bind; [| |done].
    + intros y1 y2 c _ _ H1 H2.
      apply list_elem_of_bind in H1 as (z1 & ->%list_elem_of_singleton & _).
      apply list_elem_of_bind in H2 as (z2 & H2%list_elem_of_singleton & _).
      congruence.
    + intros y _. apply NoDup_bind; [| |done].
      * intros z1 z2 c _ _ ->%list_elem_of_singleton H2%list_elem_of_singleton. congruence.
      * intros z _. apply NoDup_singleton.
Qed.

(** The candidates for the spawn positions: the interior cells at y = 1
    strictly before the first wall. *)
Definition spawnArea (g : State) : list VoxelCoords :=
  cells (upto 1 (firstWallX g)) [1] (upto 1 (widthZ (base g) - 1)).

Lemma minNumObjects_nonneg (ws : list (Z * Z)) : forall n,
  0 <= n -> Forall (fun w : Z * Z => 1 <= w.2) ws ->
  0 <= foldl (fun n wall => n + (wall.2 - 1) * 2) n ws.
Proof.
  induction ws as [|w ws IH]; intros n Hn Hws; simpl; [done|].
  inversion Hws; subst. apply IH; [lia | done].
Qed.

(** The second half of [init]. With more agents than candidates, or a
    negative number of them, the agents' range is read out of the vector;
    otherwise agents and objects get consecutive runs of the shuffled
    candidates. *)
Lemma initSpawns_run (g : State) (r : Rng) :
  Forall (fun w : Z * Z => 1 <= w.2) (walls g) ->
  exists cands,
    cands ≡ₚ spawnArea g /\
    ((numAgents (base g) < 0 \/ Z.of_nat (length cands) < numAgents (base g)) ->
       initSpawns g r = Err OutOfRange) /\
    (0 <= numAgents (base g) <= Z.of_nat (length cands) ->
       exists (m : nat) r',
         initSpawns g r =
           Ok (mkState (base g) (maxWallHeight g) (maxWallX g) (firstWallX g) (walls g)
                 (take (Z.to_nat (numAgents (base g))) cands)
                 (take m (drop (Z.to_nat (numAgents (base g))) cands)), r', [])).
Proof.
  intros Hwalls. unfold initSpawns. fold (spawnArea g).
  destruct (shuffle_run (spawnArea g) r) as (cands & r1 & Hsh & Hperm).
  exists cands. split; [done|]. rewrite (bind_silent _ _ r cands r1 Hsh). cbv zeta.
  split.
  - intros Hbad.
    assert (subvector cands 0 (numAgents (base g)) = None) as ->.
    { destruct Hbad as [Hneg|Hmany]; [|by apply subvector_None].
      unfold subvector. rewrite (proj2 (Z.leb_gt 0 (numAgents (base g)))) by lia.
      by rewrite andb_false_r. }
    reflexivity.
  - intros Hfit. rewrite subvector_Some by lia. cbn [fromOption]. rewrite bind_ret.
    pose proof (minNumObjects_nonneg (walls g) 0 ltac:(lia) Hwalls) as Hmin.
    draw numObjects Hobj. specialize (Hobj ltac:(lia)).
    rewrite subvector_Some by lia. cbn [fromOption]. rewrite bind_ret.
    eexists _, _. rewrite Z.sub_0_r, Z.add_0_l. reflexivity.
Qed.

(** [init] on a fresh generator, by the number of agents: out of range when
    the agents are more than the [(firstWallX - 1) * (width - 2)] cells
    before the first wall, or negative; otherwise it succeeds, the agents
    get [numAgents] pairwise distinct cells before the first wall, and the
    objects get further distinct cells of that area. *)
Lemma init_cases (agents : Z) (r : Rng) :
  exists gw numWalls r1,
    initWalls (create agents) r = Ok (gw, numWalls, r1, []) /\
    length (spawnArea gw) = Z.to_nat ((firstWallX gw - 1) * (widthZ (base gw) - 2)) /\
    ((agents < 0 \/ (firstWallX gw - 1) * (widthZ (base gw) - 2) < agents) ->
       init (create agents) r = Err OutOfRange) /\
    (0 <= agents <= (firstWallX gw - 1) * (widthZ (base gw) - 2) ->
       exists g r',
         init (create agents) r = Ok (g, r', []) /\
         base g = base gw /\ walls g = walls gw /\ firstWallX g = firstWallX gw /\
         maxWallX g = maxWallX gw /\ maxWallHeight g = maxWallHeight gw /\
         Z.of_nat (length (agentSpawnCoords g)) = agents /\
         NoDup (agentSpawnCoords g ++ objectSpawnCoords g) /\
         (forall c, c ∈ agentSpawnCoords g ++ objectSpawnCoords g -> c ∈ spawnArea gw)).
Proof.
  destruct (initWalls_full agents r)
    as (gw & n & r1 & Hrun & Hn & Hcount & Hag & Hlen & Hwid & Hhei & _ & _ & Hzero & Hpos).
  exists gw, n, r1. split; [done|].
  assert (3 <= firstWallX gw) as Hfirst.
  { destruct (decide (n = 0)) as [->|Hne]; [destruct (Hzero eq_refl) as (_ & -> & _); lia|].
    destruct (Hpos ltac:(lia)) as (? & _). lia. }
  assert (Forall (fun w : Z * Z => 1 <= w.2) (walls gw)) as Hheights.
  { destruct (decide (n = 0)) as [->|Hne];
      [destruct (Hzero eq_refl) as (-> & _); constructor|].
    destruct (Hpos ltac:(lia)) as (_ & _ & _ & (_ & _ & _ & Hw)).
    eapply Forall_impl; [exact Hw|]. simpl. intros w ?. lia. }
  assert (length (spawnArea gw) = Z.to_nat ((firstWallX gw - 1) * (widthZ (base gw) - 2)))
    as Harea.
  { unfold spawnArea, upto. rewrite StartFacts.length_cells, !length_seqZ. simpl. nia. }
  split; [done|].
  destruct (initSpawns_run gw r1 Hheights) as (cands & Hperm & Hfail & Hok).
  assert (Z.of_nat (length cands) = (firstWallX gw - 1) * (widthZ (base gw) - 2)) as Hsize.
  { rewrite Hperm, Harea. nia. }
  rewrite Hag in Hfail, Hok. rewrite Hsize in Hfail, Hok.
  split.
  - intros Hbad. unfold init, bind. rewrite Hrun. simpl. by rewrite (Hfail Hbad).
  - intros Hfit. destruct (Hok Hfit) as (m & r' & Hspawn).
    eexists _, r'. split.
    { unfold init. rewrite (bind_silent _ _ r (gw, n) r1 Hrun). exact Hspawn. }
    simpl. do 5 (split; [done|]). split; [rewrite length_take; lia|].
    rewrite take_take_drop.
    assert (NoDup cands) as Hnd.
    { rewrite Hperm. unfold spawnArea, upto.
      apply NoDup_cells; [apply NoDup_seqZ | apply NoDup_singleton | apply NoDup_seqZ]. }
    split; [eapply sublist_NoDup; [exact Hnd | apply sublist_take]|].
    intros c Hc. rewrite <- Hperm. eapply elem_of_sublist; [exact Hc | apply sublist_take].
Qed.

Theorem init_spawns (agents : Z) (r : Rng) :
  exists gw numWalls r1,
    initWalls (create agents) r = Ok (gw, numWalls, r1, []) /\
    ((agents < 0 \/ (firstWallX gw - 1) * (widthZ (base gw) - 2) < agents) ->
       init (create agents) r = Err OutOfRange) /\
    (0 <= agents <= (firstWallX gw - 1) * (widthZ (base gw) - 2) ->
       exists g r',
         init (create agents) r = Ok (g, r', []) /\
         base g = base gw /\ walls g = walls gw /\ firstWallX g = firstWallX gw /\
         Z.of_nat (length (agentSpawnCoords g)) = agents /\
         NoDup (agentSpawnCoords g ++ objectSpawnCoords g) /\
         (forall c, c ∈ agentSpawnCoords g ++ objectSpawnCoords g ->
            1 <= cx c < firstWallX g /\ cy c = 1 /\ 1 <= cz c < widthZ (base g) - 1)).
Proof.
  destruct (init_cases agents r) as (gw & n & r1 & Hrun & _ & Hfail & Hok).
  exists gw, n, r1. split; [done|]. split; [done|].
  intros Hfit. destruct (Hok Hfit)
    as (g & r' & Hinit & Hbase & Hwalls & Hfirst & _ & _ & Hcount & Hnd & Harea).
  exists g, r'. do 6 (split; [done|]).
  intros c Hc%Harea. unfold spawnArea in Hc.
  apply elem_of_cells in Hc. rewrite !elem_of_upto, list_elem_of_singleton in Hc.
  rewrite Hbase, Hfirst. lia.
Qed.

(** A successful [init] on a fresh generator, taken apart. *)
Lemma init_inv (agents : Z) (r : Rng) g r' log :
  init (create agents) r = Ok (g, r', log) ->
  log = [] /\
  numAgents (base g) = agents /\
  0 <= agents <= (firstWallX g - 1) * (widthZ (base g) - 2) /\
  7 <= lengthX (base g) < 35 /\ 7 <= widthZ (base g) < 25 /\
  3 + maxWallHeight g <= heightY (base g) < 5 + maxWallHeight g /\
  3 <= firstWallX g <= lengthX (base g) - 4 /\
  0 <= maxWallX g <= lengthX (base g) - 4 /\
  Forall (fun w : Z * Z => firstWallX g <= w.1 <= maxWallX g /\ 1 <= w.2 <= maxWallHeight g)
         (walls g) /\
  Z.of_nat (length (agentSpawnCoords g)) = agents /\
  NoDup (agentSpawnCoords g ++ objectSpawnCoords g) /\
  (forall c, c ∈ agentSpawnCoords g ++ objectSpawnCoords g -> c ∈ spawnArea g).
Proof.
  intros Hinit.
  destruct (init_cases agents r) as (gw & n & r1 & Hrun & _ & Hfail & Hok).
  destruct (initWalls_full agents r)
    as (gw' & n' & r1' & Hrun' & Hn & Hcount & Hag & Hlen & Hwid & Hhei & _ & _ & Hzero & Hpos).
  rewrite Hrun in Hrun'. injection Hrun' as <- <- <-.
  destruct (decide (0 <= agents <= (firstWallX gw - 1) * (widthZ (base gw) - 2)))
    as [Hfit|Hbad].
  - destruct (Hok Hfit)
      as (g' & r'' & Hinit' & Hbase & Hwalls & Hfirst & Hmx & Hmh & Hagents & Hnd & Harea).
    rewrite Hinit in Hinit'. injection Hinit' as <- <- ->.
    rewrite Hbase, Hwalls, Hfirst, Hmx, Hmh.
    assert (spawnArea g = spawnArea gw) as Hsame
      by (unfold spawnArea; by rewrite Hbase, Hfirst).
    rewrite Hsame. unfold maxNumWalls in Hn.
    destruct (decide (n = 0)) as [->|Hne].
    + destruct (Hzero eq_refl) as (-> & -> & -> & ->).
      split_and!; try done; try lia.
    + destruct (Hpos ltac:(lia)) as (Hfx & Hmax & _ & (_ & Hle & Hmh' & Hw)).
      split_and!; try done; try lia.
      eapply Forall_impl; [exact Hw|]. simpl. intros w ?. lia.
  - rewrite Hfail in Hinit by lia. discriminate.
Qed.

(** Whenever [init] has succeeded for at least one agent, [levelExit]
    succeeds: the pad is one cell deep in x, beyond the last wall and
    before the far perimeter wall, in the height band from 1 to 2, and its
    [min(3, numAgents)] cells along z lie inside the interior. *)
Theorem levelExit_beyond_walls (agents : Z) (r : Rng) g r' log grid (r2 : Rng) :
  1 <= agents -> init (create agents) r = Ok (g, r', log) ->
  exists x z r3,
    levelExit g grid r2 =
      Ok (mkBox (x, 1, z) (x + 1, 2, z + Z.min 3 agents), r3, []) /\
    maxWallX g < x /\ x + 1 <= lengthX (base g) - 1 /\
    1 <= z /\ z + Z.min 3 agents <= widthZ (base g) - 2.
Proof.
  intros Hagents Hinit.
  destruct (init_inv agents r g r' log Hinit)
    as (_ & Hag & _ & Hlen & Hwid & _ & _ & Hmx & _).
  unfold levelExit. rewrite Hag.
  rewrite (bind_silent _ _ r2 tt r2)
    by (unfold assert; by rewrite (proj2 (Z.leb_le _ _)) by lia).
  draw x Hx. specialize (Hx ltac:(lia)).
  draw z Hz. specialize (Hz ltac:(lia)).
  exists x, z, r1. split; [done|]. lia.
Qed.

(** The cells of the wall slabs. *)
Definition inWall (g : State) (c : VoxelCoords) : Prop :=
  Exists (fun w : Z * Z =>
            cx c = w.1 /\ 1 <= cy c < 1 + w.2 /\ 1 <= cz c < widthZ (base g) - 1)
         (walls g).

Lemma wallFill_lookup (width : Z) (ws : list (Z * Z)) : forall grid c,
  (Exists (fun w : Z * Z => cx c = w.1 /\ 1 <= cy c < 1 + w.2 /\ 1 <= cz c < width - 1) ws ->
   foldl (fun grid (wall : Z * Z) =>
            fillSolid (cells [wall.1] (upto 1 (1 + wall.2)) (upto 1 (width - 1))) grid)
         grid ws !! c = Some (VoxelState_of true)) /\
  (~ Exists (fun w : Z * Z => cx c = w.1 /\ 1 <= cy c < 1 + w.2 /\ 1 <= cz c < width - 1) ws ->
   foldl (fun grid (wall : Z * Z) =>
            fillSolid (cells [wall.1] (upto 1 (1 + wall.2)) (upto 1 (width - 1))) grid)
         grid ws !! c = grid !! c).
Proof.
  induction ws as [|w ws IH] using rev_ind; intros grid c.
  - split; [by intros ?%Exists_nil | done].
  - rewrite foldl_app. cbn [foldl]. rewrite fillSolid_lookup, Exists_app.
    rewrite Exists_cons, Exists_nil.
    assert (c ∈ cells [w.1] (upto 1 (1 + w.2)) (upto 1 (width - 1)) <->
            cx c = w.1 /\ 1 <= cy c < 1 + w.2 /\ 1 <= cz c < width - 1) as Hcell
      by (rewrite elem_of_cells, list_elem_of_singleton, !elem_of_upto; done).
    destruct (IH grid c) as [IH1 IH2].
    case_bool_decide as Hc; split; try done.
    + tauto.
    + intros [Hws|[Hw|[]]]; [by apply IH1 | tauto].
    + intros Hno. apply IH2. tauto.
Qed.

Lemma generate_cells_walls (g : State) (grid0 : VoxelGrid) :
  2 <= lengthX (base g) <= 2 ^ 30 -> 2 <= widthZ (base g) <= 2 ^ 30 ->
  exists grid, generate g grid0 = Some grid /\
    forall c,
      (BasicMore.inShell (base g) c \/ inWall g c ->
         grid !! c = Some (VoxelState_of true)) /\
      (~ BasicMore.inShell (base g) c -> ~ inWall g c -> grid !! c = grid0 !! c).
Proof.
  intros Hlen Hwid. unfold generate.
  destruct (BasicMore.generate_cells (base g) grid0 Hlen Hwid) as (shell & -> & Hshell).
  eexists. split; [reflexivity|]. intros c.
  destruct (wallFill_lookup (widthZ (base g)) (walls g) shell c) as [Hin Hout].
  destruct (Hshell c) as [Hs1 Hs2]. fold (inWall g c) in Hin, Hout.
  assert (inWall g c \/ ~ inWall g c) as [Hw|Hw].
  { unfold inWall.
    destruct (decide (Exists (fun w : Z * Z =>
                cx c = w.1 /\ 1 <= cy c < 1 + w.2 /\ 1 <= cz c < widthZ (base g) - 1)
                (walls g))); [by left | by right]. }
  - split; [intros _; by apply Hin | tauto].
  - rewrite (Hout Hw). split; [intros [?|?]; [by apply Hs1 | done] | intros ? _; by apply Hs2].
Qed.

(** [generate] of the Walls generator writes the room shell and the wall
    slabs, solid, and leaves every other coordinate as it was. *)
Theorem generate_writes_walls (g : State) (grid0 : VoxelGrid) :
  2 <= lengthX (base g) <= 2 ^ 30 -> 2 <= widthZ (base g) <= 2 ^ 30 ->
  exists grid, generate g grid0 = Some grid /\
    forall c,
      (BasicMore.inShell (base g) c \/ inWall g c ->
         grid !! c = Some (VoxelState_of true)) /\
      (~ BasicMore.inShell (base g) c -> ~ inWall g c -> grid !! c = grid0 !! c).
Proof. apply generate_cells_walls. Qed.

(** After a successful [init] on a fresh generator, [generate] returns on
    the empty grid, and no spawn position of an agent or of an object is a
    stored voxel: nothing spawns inside the shell or inside a wall. *)
Theorem spawns_clear_of_walls (agents : Z) (r : Rng) g r' log :
  init (create agents) r = Ok (g, r', log) ->
  exists grid, generate g ∅ = Some grid /\
    forall c, c ∈ agentSpawnCoords g ++ objectSpawnCoords g -> grid !! c = None.
Proof.
  intros Hinit.
  destruct (init_inv agents r g r' log Hinit)
    as (_ & _ & _ & Hlen & Hwid & _ & Hfx & _ & Hwalls & _ & _ & Harea).
  destruct (generate_cells_walls g ∅ ltac:(lia) ltac:(lia)) as (grid & Hgen & Hcells).
  exists grid. split; [done|]. intros c Hc%Harea.
  unfold spawnArea in Hc. apply elem_of_cells in Hc.
  rewrite !elem_of_upto, list_elem_of_singleton in Hc.
  destruct (Hcells c) as [_ Hout]. rewrite Hout; [apply lookup_empty | |].
  - unfold BasicMore.inShell. lia.
  - unfold inWall. rewrite Exists_exists. intros (w & Hw & Hcw).
    rewrite Forall_forall in Hwalls. specialize (Hwalls w Hw).
    lia.
Qed.

End WallsMore.
End WallsMore.

(** ** The Cave generator: ceiling, cavity walls and free voxels *)

Module CaveMore.
Import Cave CaveFacts.

(** A loop that sets the cells of [cs] solid unless [skip] says otherwise
    writes the cells that are not skipped. *)
Lemma fillUnless_eq (skip : VoxelCoords -> bool) cs : forall grid,
  foldl (fun grid a => if skip a then grid else grid_set a (VoxelState_of true) grid) grid cs
  = fillSolid (filter (fun a => skip a = false) cs) grid.
Proof.
  induction cs as [|a cs IH]; intros grid; [done|].
  cbn [foldl]. rewrite IH, filter_cons.
  destruct (skip a) eqn:Ha; case_decide; try done.
Qed.

(** The cells of the plane [y = caveHeight] that [generate] looks at for
    the top surface. *)
Definition topCells (g : State) : list VoxelCoords :=
  cells (upto 1 (lengthX (base g))) [caveHeight g] (upto 1 (widthZ (base g))).

(** When a neighbour of a cave cell is left alone by the loop that builds
    the walls of the cave. *)
Definition skipWall (g : State) (cave : gset VoxelCoords) (a : VoxelCoords) : bool :=
  (caveHeight g <? cy a) || bool_decide (a ∈ cave).

(** The cells written by the loop that builds the walls of the cave. *)
Definition sealCells (g : State) (cave : gset VoxelCoords) : list VoxelCoords :=
  coord ← elements cave;
  filter (fun a => skipWall g cave a = false) (offset coord <$> signedDirections).

Lemma topSurface_eq g cave grid :
  topSurface g cave grid =
  fillSolid (filter (fun a => bool_decide (a ∈ cave) = false) (topCells g)) grid.
Proof. unfold topSurface. apply (fillUnless_eq (fun a => bool_decide (a ∈ cave))). Qed.

Lemma foldl_same {A B} (f h : A -> B -> A) (l : list B) : forall a,
  (forall a b, f a b = h a b) -> foldl f a l = foldl h a l.
Proof.
  induction l as [|b l IH]; intros a Hfh; [done|]. cbn [foldl]. rewrite Hfh. by apply IH.
Qed.

Lemma fillSolid_app l1 l2 grid : fillSolid (l1 ++ l2) grid = fillSolid l2 (fillSolid l1 grid).
Proof. unfold fillSolid. apply foldl_app. Qed.

Lemma caveWalls_eq g cave grid : caveWalls g cave grid = fillSolid (sealCells g cave) grid.
Proof.
  unfold caveWalls, sealCells. generalize (elements cave). intros l. revert grid.
  induction l as [|coord l IH]; intros grid; [done|].
  cbn [foldl]. rewrite IH.
  change ((coord :: l) ≫= ?f) with (f coord ++ (l ≫= f)).
  rewrite fillSolid_app. f_equal.
  rewrite <- (fillUnless_eq (skipWall g cave)), foldl_fmap.
  apply foldl_same. intros grid' d. unfold skipWall.
  by destruct (caveHeight g <? cy (offset coord d)).
Qed.

Lemma elem_of_sealCells g cave a :
  a ∈ sealCells g cave <->
  (exists c d, c ∈ cave /\ d ∈ signedDirections /\ a = offset c d) /\
  cy a <= caveHeight g /\ a ∉ cave.
Proof.
  unfold sealCells. rewrite list_elem_of_bind. split.
  - intros (c & Ha & Hc%elem_of_elements).
    apply list_elem_of_filter in Ha as [Hskip Ha].
    apply list_elem_of_fmap in Ha as (d & -> & Hd).
    unfold skipWall in Hskip. apply orb_false_iff in Hskip as [Hy Hcave].
    apply Z.ltb_ge in Hy. apply bool_decide_eq_false in Hcave.
    split; [by exists c, d|]. done.
  - intros ((c & d & Hc & Hd & ->) & Hy & Hcave). exists c.
    split; [|by apply elem_of_elements].
    apply list_elem_of_filter. split; [|by apply list_elem_of_fmap; exists d].
    unfold skipWall. apply orb_false_iff. split; [by apply Z.ltb_ge|].
    by apply bool_decide_eq_false.
Qed.

Lemma elem_of_topCells g c :
  c ∈ topCells g <->
  1 <= cx c < lengthX (base g) /\ cy c = caveHeight g /\ 1 <= cz c < widthZ (base g).
Proof. unfold topCells. by rewrite elem_of_cells, !elem_of_upto, list_elem_of_singleton. Qed.

(** The grid after the top surface and the walls of the cave. *)
Lemma carve_lookup g cave grid0 c :
  caveWalls g cave (topSurface g cave grid0) !! c =
  if bool_decide ((c ∉ cave) /\ (c ∈ sealCells g cave \/ c ∈ topCells g))
  then Some (VoxelState_of true) else grid0 !! c.
Proof.
  rewrite caveWalls_eq, topSurface_eq, !fillSolid_lookup.
  pose proof (elem_of_sealCells g cave c) as Hseal.
  assert (c ∈ filter (fun a : VoxelCoords => bool_decide (a ∈ cave) = false) (topCells g)
          <-> (c ∉ cave) /\ c ∈ topCells g) as Htop
    by (rewrite list_elem_of_filter, bool_decide_eq_false; done).
  repeat case_bool_decide; try done; exfalso; tauto.
Qed.

(** The two carving loops never write a cell of the cave set. *)
Theorem carve_keeps_cave (g : State) (cave : gset VoxelCoords) (grid0 : VoxelGrid) c :
  c ∈ cave -> caveWalls g cave (topSurface g cave grid0) !! c = grid0 !! c.
Proof.
  intros Hc. rewrite carve_lookup. case_bool_decide; [tauto | done].
Qed.

(** After the two carving loops the plane [y = caveHeight] is solid over
    [1 <= x < length], [1 <= z < width] outside the cave, every neighbour
    of a cave cell at or below [caveHeight] that is not itself a cave cell
    is solid, and whatever else the grid holds is what it held before. *)
Theorem carve_seals (g : State) (cave : gset VoxelCoords) (grid0 : VoxelGrid) :
  (forall x z, 1 <= x < lengthX (base g) -> 1 <= z < widthZ (base g) ->
     (x, caveHeight g, z) ∉ cave ->
     caveWalls g cave (topSurface g cave grid0) !! (x, caveHeight g, z)
       = Some (VoxelState_of true)) /\
  (forall c d, c ∈ cave -> d ∈ signedDirections ->
     cy (offset c d) <= caveHeight g -> offset c d ∉ cave ->
     caveWalls g cave (topSurface g cave grid0) !! offset c d
       = Some (VoxelState_of true)) /\
  (forall c,
     caveWalls g cave (topSurface g cave grid0) !! c = Some (VoxelState_of true) \/
     caveWalls g cave (topSurface g cave grid0) !! c = grid0 !! c).
Proof.
  split; [|split].
  - intros x z Hx Hz Hcave. rewrite carve_lookup, bool_decide_eq_true_2; [done|].
    split; [done|]. right. apply elem_of_topCells. unfold cx, cy, cz; simpl. lia.
  - intros c d Hc Hd Hy Hcave. rewrite carve_lookup, bool_decide_eq_true_2; [done|].
    split; [done|]. left. apply elem_of_sealCells. split; [by exists c, d | done].
  - intros c. rewrite carve_lookup. case_bool_decide; [by left | by right].
Qed.

End CaveMore.
